(** * Spirit PFP generator: the canvas compositing pipeline of [src/app/page.tsx]

    The development embeds the render pass of the component ([draw] and its
    helpers [clamp], [fitCover], [drawParticles], [drawLightning], [path],
    [seeded]) and proves properties of it.

    Numbers.  A JavaScript [number] is modelled by [number]: an exact
    rational, one of the two infinities, or NaN.  The special values behave
    as in IEEE-754 (division by zero, comparisons with NaN); the rounding of
    finite results is not modelled and the two zeros are not told apart.
    The generator's own arithmetic is exact in the source as it is here: its
    state is an integer below 2^32, the product in its update stays below
    2^53, and its output is a fraction over 2^24.

    Canvas.  The 2D context is a record of its drawing state (compositing
    operator, filter, fill and stroke style, line width), its stack of saved
    states, its current path, and the surface as the list of the painting
    calls made on it, each with the drawing state it was made under.  Colours
    and filters are kept as terms, not as the strings the source builds; the
    component's [busy] flag, which the pass only writes, is left out. *)

From Stdlib Require Import ZArith QArith Qround Qreduction List Bool Lia Lqa.
Import ListNotations.

Local Open Scope Z_scope.

(** ** JavaScript numbers *)

Inductive number : Type :=
| Fin (q : Q)
| PosInf
| NegInf
| NaN.

Definition ofZ (z : Z) : number := Fin (inject_Z z).

(** A decimal literal of the source. *)
Definition lit (q : Q) : number := Fin (Qred q).

Definition nadd (a b : number) : number :=
  match a, b with
  | NaN, _ | _, NaN => NaN
  | Fin x, Fin y => Fin (Qred (x + y))
  | PosInf, NegInf | NegInf, PosInf => NaN
  | PosInf, _ | _, PosInf => PosInf
  | NegInf, _ | _, NegInf => NegInf
  end.

Definition nsub (a b : number) : number :=
  match a, b with
  | NaN, _ | _, NaN => NaN
  | Fin x, Fin y => Fin (Qred (x - y))
  | PosInf, PosInf | NegInf, NegInf => NaN
  | PosInf, _ | _, NegInf => PosInf
  | NegInf, _ | _, PosInf => NegInf
  end.

(** The sign of an infinity scaled by a finite factor; zero times infinity
    is NaN. *)
Definition scale_inf (positive : bool) (x : Q) : number :=
  match (x ?= 0)%Q with
  | Eq => NaN
  | Gt => if positive then PosInf else NegInf
  | Lt => if positive then NegInf else PosInf
  end.

Definition nmul (a b : number) : number :=
  match a, b with
  | NaN, _ | _, NaN => NaN
  | Fin x, Fin y => Fin (Qred (x * y))
  | Fin x, PosInf | PosInf, Fin x => scale_inf true x
  | Fin x, NegInf | NegInf, Fin x => scale_inf false x
  | PosInf, PosInf | NegInf, NegInf => PosInf
  | PosInf, NegInf | NegInf, PosInf => NegInf
  end.

Definition ndiv (a b : number) : number :=
  match a, b with
  | NaN, _ | _, NaN => NaN
  | Fin x, Fin y =>
      match (y ?= 0)%Q with
      | Eq => match (x ?= 0)%Q with
              | Eq => NaN
              | Gt => PosInf
              | Lt => NegInf
              end
      | _ => Fin (Qred (x / y))
      end
  | Fin _, _ => Fin 0
  | PosInf, Fin y => match (y ?= 0)%Q with Lt => NegInf | _ => PosInf end
  | NegInf, Fin y => match (y ?= 0)%Q with Lt => PosInf | _ => NegInf end
  | _, _ => NaN
  end.

(** [a < b]; false as soon as one side is NaN. *)
Definition nlt (a b : number) : bool :=
  match a, b with
  | NaN, _ | _, NaN => false
  | Fin x, Fin y => match (x ?= y)%Q with Lt => true | _ => false end
  | NegInf, NegInf | PosInf, _ => false
  | NegInf, _ => true
  | Fin _, PosInf => true
  | Fin _, NegInf => false
  end.

(** [a > b]. *)
Definition ngt (a b : number) : bool := nlt b a.

(** [a === b] on numbers; NaN equals nothing. *)
Definition neq (a b : number) : bool :=
  match a, b with
  | Fin x, Fin y => Qeq_bool x y
  | PosInf, PosInf | NegInf, NegInf => true
  | _, _ => false
  end.

Definition Math_floor (a : number) : number :=
  match a with
  | Fin x => ofZ (Qfloor x)
  | _ => a
  end.

Definition Math_min (a b : number) : number :=
  if nlt a b then a
  else if nlt b a then b
  else if neq a b then a
  else NaN.

Definition Math_max (a b : number) : number :=
  if nlt b a then a
  else if nlt a b then b
  else if neq a b then a
  else NaN.

(** [Math.PI], the double nearest to pi, written exactly. *)
Definition Math_PI : number := lit (884279719003555 # 281474976710656).

(** *** Integer conversions *)

Definition two32 : Z := 2 ^ 32.
Definition two31 : Z := 2 ^ 31.

(** The integer part of a finite number, rounding toward zero. *)
Definition truncate (x : Q) : Z :=
  if Qle_bool 0 x then Qfloor x else Qceiling x.

(** ToUint32: NaN and the infinities give 0. *)
Definition ToUint32 (a : number) : Z :=
  match a with
  | Fin x => truncate x mod two32
  | _ => 0
  end.

(** ToInt32: ToUint32 read as a signed 32-bit integer. *)
Definition ToInt32 (a : number) : Z :=
  let u := ToUint32 a in
  if u <? two31 then u else u - two32.

(** [a >>> 0]. *)
Definition ushr0 (a : number) : number := ofZ (ToUint32 a).

(** [a ^ b]. *)
Definition bitxor (a b : number) : number :=
  ofZ (Z.lxor (ToInt32 a) (ToInt32 b)).

(** [a & b]. *)
Definition bitand (a b : number) : number :=
  ofZ (Z.land (ToInt32 a) (ToInt32 b)).

(** [a || b] on numbers: [a] unless it is falsy (0 or NaN). *)
Definition or_else (a b : number) : number :=
  match a with
  | NaN => b
  | Fin x => if Qeq_bool x 0 then b else a
  | _ => a
  end.

(** ** The seeded generator, [seeded] *)

(** The closure returned by [seeded] owns one variable, [s] in the source. *)
Record Stream : Type := mkStream { lcg_s : number }.

Definition seeded (seed : number) : Stream :=
  mkStream (or_else (ushr0 seed) (ofZ 1)).

(** One call of the closure: the value returned and the closure after it. *)
Definition rnd (g : Stream) : number * Stream :=
  let s1 := ushr0 (nadd (nmul (ofZ 1664525) (lcg_s g)) (ofZ 1013904223)) in
  (ndiv (bitand s1 (ofZ 16777215)) (ofZ 16777216), mkStream s1).

(** The first [n] values of a stream. *)
Fixpoint draws (n : nat) (g : Stream) : list number :=
  match n with
  | O => []
  | S k => let '(v, g') := rnd g in v :: draws k g'
  end.

(** The stream after [n] calls. *)
Fixpoint advance (n : nat) (g : Stream) : Stream :=
  match n with
  | O => g
  | S k => advance k (snd (rnd g))
  end.

(** The generator as the specification words it: a linear congruential
    state update modulo 2^32 and the low 24 bits of the state as output. *)
Definition lcg_next (z : Z) : Z := (1664525 * z + 1013904223) mod 2 ^ 32.
Definition lcg_out (z : Z) : Q := (z mod 2 ^ 24) # (2 ^ 24).

(** ** The 2D canvas *)

Inductive CompositeOp : Type := source_over | screen.

(** One function of a CSS filter list; the empty list is ["none"]. *)
Inductive FilterFn : Type :=
| contrast_fn (v : number)
| saturate_fn (v : number)
| blur_fn (px : number)
| brightness_fn (v : number).

Definition Filter : Type := list FilterFn.
Definition filter_none : Filter := [].

Record Color : Type := rgba { red : Z; green : Z; blue : Z; alpha : number }.

Definition ColorStop : Type := (number * Color)%type.

Inductive Style : Type :=
| Solid (c : Color)
| LinearGradient (x0 y0 x1 y1 : number) (stops : list ColorStop)
| RadialGradient (x0 y0 r0 x1 y1 r1 : number) (stops : list ColorStop).

Definition addColorStop (g : Style) (offset : number) (c : Color) : Style :=
  match g with
  | Solid _ => g
  | LinearGradient x0 y0 x1 y1 stops =>
      LinearGradient x0 y0 x1 y1 (stops ++ [(offset, c)])
  | RadialGradient x0 y0 r0 x1 y1 r1 stops =>
      RadialGradient x0 y0 r0 x1 y1 r1 (stops ++ [(offset, c)])
  end.

Record DrawState : Type := mkDrawState {
  globalCompositeOperation : CompositeOp;
  filter : Filter;
  fillStyle : Style;
  strokeStyle : Style;
  lineWidth : number
}.

Definition black : Color := rgba 0 0 0 (ofZ 1).

(** The state of a context that was just created or reset. *)
Definition default_state : DrawState :=
  mkDrawState source_over filter_none (Solid black) (Solid black) (ofZ 1).

Inductive PathCmd : Type :=
| MoveTo (x y : number)
| LineTo (x y : number)
| Arc (x y r a0 a1 : number).

(** The image the user picked, as far as the render pass reads it. *)
Record HTMLImageElement : Type := mkImage {
  width : Z;
  height : Z;
  bitmap : list Z
}.

(** A painting call, with the drawing state it was issued under.
    [DrawCanvas] is [drawImage] with the canvas itself as the source: it
    reads the surface painted so far. *)
Inductive Paint : Type :=
| ClearRect (x y w h : number)
| FillRect (x y w h : number) (st : DrawState)
| DrawImage (im : HTMLImageElement) (sx sy sw sh dx dy dw dh : number)
            (st : DrawState)
| DrawCanvas (dx dy : number) (st : DrawState)
| FillPath (p : list PathCmd) (st : DrawState)
| StrokePath (p : list PathCmd) (st : DrawState).

Record Canvas : Type := mkCanvas {
  cv_width : Z;
  cv_height : Z;
  ctx : DrawState;
  saved : list DrawState;
  cur_path : list PathCmd;
  surface : list Paint
}.

(** Assigning [cv.width] or [cv.height] resizes the bitmap, which clears it
    and resets the context to its default state. *)
Definition set_width (w : Z) (c : Canvas) : Canvas :=
  mkCanvas w (cv_height c) default_state [] [] [].

Definition set_height (h : Z) (c : Canvas) : Canvas :=
  mkCanvas (cv_width c) h default_state [] [] [].

Definition with_ctx (f : DrawState -> DrawState) (c : Canvas) : Canvas :=
  mkCanvas (cv_width c) (cv_height c) (f (ctx c)) (saved c) (cur_path c)
           (surface c).

Definition set_globalCompositeOperation (o : CompositeOp) : Canvas -> Canvas :=
  with_ctx (fun st =>
    mkDrawState o (filter st) (fillStyle st) (strokeStyle st) (lineWidth st)).

Definition set_filter (f : Filter) : Canvas -> Canvas :=
  with_ctx (fun st =>
    mkDrawState (globalCompositeOperation st) f (fillStyle st)
                (strokeStyle st) (lineWidth st)).

Definition set_fillStyle (y : Style) : Canvas -> Canvas :=
  with_ctx (fun st =>
    mkDrawState (globalCompositeOperation st) (filter st) y
                (strokeStyle st) (lineWidth st)).

Definition set_strokeStyle (y : Style) : Canvas -> Canvas :=
  with_ctx (fun st =>
    mkDrawState (globalCompositeOperation st) (filter st) (fillStyle st)
                y (lineWidth st)).

Definition set_lineWidth (w : number) : Canvas -> Canvas :=
  with_ctx (fun st =>
    mkDrawState (globalCompositeOperation st) (filter st) (fillStyle st)
                (strokeStyle st) w).

Definition save (c : Canvas) : Canvas :=
  mkCanvas (cv_width c) (cv_height c) (ctx c) (ctx c :: saved c)
           (cur_path c) (surface c).

(** [restore] pops the saved state; with nothing saved it does nothing. *)
Definition restore (c : Canvas) : Canvas :=
  match saved c with
  | [] => c
  | st :: rest =>
      mkCanvas (cv_width c) (cv_height c) st rest (cur_path c) (surface c)
  end.

Definition paint (p : Paint) (c : Canvas) : Canvas :=
  mkCanvas (cv_width c) (cv_height c) (ctx c) (saved c) (cur_path c)
           (surface c ++ [p]).

Definition with_path (f : list PathCmd -> list PathCmd) (c : Canvas) : Canvas :=
  mkCanvas (cv_width c) (cv_height c) (ctx c) (saved c) (f (cur_path c))
           (surface c).

Definition clearRect (x y w h : number) (c : Canvas) : Canvas :=
  paint (ClearRect x y w h) c.

Definition fillRect (x y w h : number) (c : Canvas) : Canvas :=
  paint (FillRect x y w h (ctx c)) c.

Definition drawImage (im : HTMLImageElement)
    (sx sy sw sh dx dy dw dh : number) (c : Canvas) : Canvas :=
  paint (DrawImage im sx sy sw sh dx dy dw dh (ctx c)) c.

Definition drawCanvas (dx dy : number) (c : Canvas) : Canvas :=
  paint (DrawCanvas dx dy (ctx c)) c.

Definition beginPath : Canvas -> Canvas := with_path (fun _ => []).

Definition moveTo (x y : number) : Canvas -> Canvas :=
  with_path (fun p => p ++ [MoveTo x y]).

Definition lineTo (x y : number) : Canvas -> Canvas :=
  with_path (fun p => p ++ [LineTo x y]).

Definition arc (x y r a0 a1 : number) : Canvas -> Canvas :=
  with_path (fun p => p ++ [Arc x y r a0 a1]).

Definition fill (c : Canvas) : Canvas := paint (FillPath (cur_path c) (ctx c)) c.

Definition stroke (c : Canvas) : Canvas :=
  paint (StrokePath (cur_path c) (ctx c)) c.

(** ** Helpers of the source *)

Definition clamp (v a b : number) : number := Math_max a (Math_min b v).

Record Fit : Type := mkFit {
  sx : number; sy : number; s : number;
  dx : number; dy : number; d : number
}.

Definition fitCover (iw ih W H : number) : Fit :=
  let ir := ndiv iw ih in
  let r := ndiv W H in
  if ngt ir r then
    let s := Math_floor (nmul ih (ndiv W H)) in
    let sx := Math_floor (ndiv (nsub iw s) (ofZ 2)) in
    mkFit sx (ofZ 0) s (ofZ 0) (ofZ 0) W
  else
    let s := Math_floor (nmul iw (ndiv H W)) in
    let sy := Math_floor (ndiv (nsub ih s) (ofZ 2)) in
    mkFit (ofZ 0) sy s (ofZ 0) (ofZ 0) H.

(** [f] applied [n] times: the body of a counted loop. *)
Fixpoint repeat_loop {A : Type} (n : nat) (f : A -> A) (a : A) : A :=
  match n with
  | O => a
  | S k => repeat_loop k f (f a)
  end.

(** *** [drawParticles] *)

Definition particle_seed (W H intensity : number) : number :=
  bitxor (bitxor (Math_floor (nmul intensity (ofZ 1000000))) W) H.

(** One turn of the loop of [drawParticles]. *)
Definition particle (W H : number) (acc : Canvas * Stream) : Canvas * Stream :=
  let '(c, g) := acc in
  let '(u, g) := rnd g in
  let x := nmul u W in
  let '(u, g) := rnd g in
  let y := nmul u H in
  let '(u, g) := rnd g in
  let r := nadd (lit (5 # 10)) (nmul u (lit (22 # 10))) in
  let '(u, g) := rnd g in
  let a := nadd (lit (35 # 100)) (nmul u (lit (45 # 100))) in
  let r4 := nmul r (ofZ 4) in
  let gr := RadialGradient x y (ofZ 0) x y r4 [] in
  let gr := addColorStop gr (ofZ 0) (rgba 255 255 255 a) in
  let gr := addColorStop gr (ofZ 1) (rgba 100 220 255 (ofZ 0)) in
  let c := set_fillStyle gr c in
  let c := beginPath c in
  let c := arc x y r4 (ofZ 0) (nmul Math_PI (ofZ 2)) c in
  let c := fill c in
  (c, g).

(** [count] is the slider's integer; the loop [for (i = 0; i < count; i++)]
    runs [count] times, and not at all for a negative count. *)
Definition drawParticles (c : Canvas) (W H : number) (count : Z)
    (intensity : number) : Canvas :=
  let g := seeded (particle_seed W H intensity) in
  let c := save c in
  let c := set_globalCompositeOperation screen c in
  let '(c, _) := repeat_loop (Z.to_nat count) (particle W H) (c, g) in
  restore c.

(** *** [path] *)

Fixpoint path_from (i : nat) (pts : list (number * number)) (c : Canvas)
    : Canvas :=
  match pts with
  | [] => c
  | (x, y) :: rest =>
      path_from (S i) rest
        (match i with O => moveTo x y c | S _ => lineTo x y c end)
  end.

Definition path (c : Canvas) (pts : list (number * number)) : Canvas :=
  path_from 0 pts (beginPath c).

(** The turns of a loop [for (i = 1; i <= n; i++)] for a finite [n]; the
    bound of the only such loop, [segments], is an integer from 15 to 32. *)
Definition turns_upto (n : number) : nat :=
  match n with
  | Fin q => Z.to_nat (Qfloor q)
  | _ => O
  end.

(** The component's state that the render pass reads. *)
Inductive Background : Type := dark | transparent.

Record Settings : Type := mkSettings {
  size : Z;
  glow : number;
  intensity : number;
  cyanize : number;
  contrast : number;
  saturation : number;
  vignette : number;
  particles : Z;
  lightning : bool;
  background : Background
}.

Definition with_cyanize (v : number) (p : Settings) : Settings :=
  mkSettings (size p) (glow p) (intensity p) v (contrast p) (saturation p)
             (vignette p) (particles p) (lightning p) (background p).

Definition with_size (z : Z) (p : Settings) : Settings :=
  mkSettings z (glow p) (intensity p) (cyanize p) (contrast p) (saturation p)
             (vignette p) (particles p) (lightning p) (background p).

(** The initial values of the component's state. *)
Definition defaults : Settings :=
  mkSettings 1024 (ofZ 24) (lit (7 # 10)) (lit (55 # 100)) (lit (11 # 10))
             (lit (125 # 100)) (lit (35 # 100)) 150 true dark.

Section Render.

(** [Math.cos] and [Math.sin]: the platform's approximations, left open. *)
Variable Math_cos Math_sin : number -> number.

(** *** [drawLightning] *)

Definition lightning_seed (intensity : number) : number :=
  nadd (ofZ 12345) (Math_floor (nmul intensity (ofZ 1000))).

(** [(rnd() - 0.5) * 0.5], for the value [u] that [rnd()] returned. *)
Definition perturbation (u : number) : number :=
  nmul (nsub u (lit (5 # 10))) (lit (5 # 10)).

(** [(rnd() - 0.5) * jitter]. *)
Definition jitter_offset (u jitter : number) : number :=
  nmul (nsub u (lit (5 # 10))) jitter.

(** One turn of the inner loop: the arguments handed to [Math.cos] and
    [Math.sin], the two jitter offsets, the point reached and the generator
    after the turn's four calls. *)
Record Step : Type := mkStep {
  heading_x : number;
  heading_y : number;
  jitter_x : number;
  jitter_y : number;
  step_x : number;
  step_y : number;
  step_rnd : Stream
}.

Definition step (angle len segments jitter x y : number) (g : Stream) : Step :=
  let '(u, g) := rnd g in
  let hx := nadd angle (perturbation u) in
  let x := nadd x (nmul (Math_cos hx) (ndiv len segments)) in
  let '(u, g) := rnd g in
  let hy := nadd angle (perturbation u) in
  let y := nadd y (nmul (Math_sin hy) (ndiv len segments)) in
  let '(u, g) := rnd g in
  let jx := jitter_offset u jitter in
  let x := nadd x jx in
  let '(u, g) := rnd g in
  let jy := jitter_offset u jitter in
  let y := nadd y jy in
  mkStep hx hy jx jy x y g.

(** The inner loop's variables: [x], [y], [pts] and the generator. *)
Record Walk : Type := mkWalk {
  walk_x : number;
  walk_y : number;
  pts : list (number * number);
  walk_rnd : Stream
}.

Definition segment (angle len segments jitter : number) (w : Walk) : Walk :=
  let st := step angle len segments jitter (walk_x w) (walk_y w) (walk_rnd w) in
  mkWalk (step_x st) (step_y st) (pts w ++ [(step_x st, step_y st)])
         (step_rnd st).

(** The values a branch draws before its inner loop. *)
Record Branch : Type := mkBranch {
  x0 : number;
  y0 : number;
  len : number;
  segments : number;
  jitter : number;
  angle : number;
  branch_rnd : Stream
}.

Definition branch_setup (W H intensity : number) (g : Stream) : Branch :=
  let '(u, g) := rnd g in
  let x0 := nadd (nmul (nmul u W) (lit (8 # 10))) (nmul W (lit (1 # 10))) in
  let '(u, g) := rnd g in
  let y0 := nadd (nmul (nmul u H) (lit (8 # 10))) (nmul H (lit (1 # 10))) in
  let '(u, g) := rnd g in
  let len :=
    nmul (nadd (nmul H (lit (25 # 100))) (nmul (nmul u H) (lit (35 # 100))))
         (nadd (lit (7 # 10)) (nmul intensity (lit (6 # 10)))) in
  let '(u, g) := rnd g in
  let segments := nadd (ofZ 15) (Math_floor (nmul u (ofZ 18))) in
  let '(u, g) := rnd g in
  let jitter := nadd (ofZ 10) (nmul (ofZ 30) u) in
  let '(u, g) := rnd g in
  let angle := nmul (nmul u Math_PI) (ofZ 2) in
  mkBranch x0 y0 len segments jitter angle g.

Definition branch_walk (b : Branch) : Walk :=
  repeat_loop (turns_upto (segments b))
    (segment (angle b) (len b) (segments b) (jitter b))
    (mkWalk (x0 b) (y0 b) [(x0 b, y0 b)] (branch_rnd b)).

(** One turn of the outer loop of [drawLightning]. *)
Definition bolt (W H intensity : number) (acc : Canvas * Stream)
    : Canvas * Stream :=
  let '(c, g) := acc in
  let w := branch_walk (branch_setup W H intensity g) in
  (* glow *)
  let c := set_strokeStyle (Solid (rgba 120 220 255 (lit (55 # 100)))) c in
  let c := set_lineWidth (ofZ 6) c in
  let c := set_filter [blur_fn (nadd (ofZ 8) (nmul (ofZ 10) intensity))] c in
  let c := stroke (path c (pts w)) in
  (* core *)
  let c := set_filter filter_none c in
  let c := set_strokeStyle (Solid (rgba 200 255 255 (lit (9 # 10)))) c in
  let c := set_lineWidth (ofZ 2) c in
  let c := stroke (path c (pts w)) in
  (c, walk_rnd w).

Definition drawLightning (c : Canvas) (W H : number) (branches : Z)
    (intensity : number) : Canvas :=
  let g := seeded (lightning_seed intensity) in
  let c := save c in
  let c := set_globalCompositeOperation screen c in
  let '(c, _) := repeat_loop (Z.to_nat branches) (bolt W H intensity) (c, g) in
  restore c.

(** *** [draw], stage by stage *)

(** "Background": the surface is resized, cleared and, for the dark
    background, filled with the vertical gradient. *)
Definition drawBackground (p : Settings) (c : Canvas) : Canvas :=
  let W := ofZ (size p) in
  let H := ofZ (size p) in
  let c := set_width (size p) c in
  let c := set_height (size p) c in
  let c := clearRect (ofZ 0) (ofZ 0) W H c in
  match background p with
  | dark =>
      let g := LinearGradient (ofZ 0) (ofZ 0) (ofZ 0) H [] in
      let g := addColorStop g (ofZ 0) (rgba 11 18 32 (ofZ 1)) in
      let g := addColorStop g (ofZ 1) (rgba 10 15 26 (ofZ 1)) in
      let c := set_fillStyle g c in
      fillRect (ofZ 0) (ofZ 0) W H c
  | transparent => c
  end.

(** "Draw user image, fit-cover to square" and "Base, slightly enhanced". *)
Definition drawBase (img : HTMLImageElement) (p : Settings) (c : Canvas)
    : Canvas :=
  let W := ofZ (size p) in
  let H := ofZ (size p) in
  let f := fitCover (ofZ (width img)) (ofZ (height img)) W H in
  let c := set_filter [contrast_fn (contrast p); saturate_fn (saturation p)] c in
  let c := drawImage img (sx f) (sy f) (s f) (s f) (dx f) (dy f) (d f) (d f) c in
  set_filter filter_none c.

(** "Cyan tint overlay (screen)". *)
Definition drawTint (p : Settings) (c : Canvas) : Canvas :=
  let W := ofZ (size p) in
  let H := ofZ (size p) in
  let c := set_globalCompositeOperation screen c in
  let tint :=
    RadialGradient (ndiv W (ofZ 2)) (ndiv H (ofZ 2)) (nmul W (lit (15 # 100)))
                   (ndiv W (ofZ 2)) (ndiv H (ofZ 2)) (nmul W (lit (8 # 10)))
                   [] in
  let cl := clamp (cyanize p) (ofZ 0) (ofZ 1) in
  let tint :=
    addColorStop tint (ofZ 0) (rgba 0 255 255 (nmul (lit (35 # 100)) cl)) in
  let tint :=
    addColorStop tint (ofZ 1) (rgba 0 160 255 (nmul (lit (10 # 100)) cl)) in
  let c := set_fillStyle tint c in
  let c := fillRect (ofZ 0) (ofZ 0) W H c in
  set_globalCompositeOperation source_over c.

(** "Glow pass: blur the original composite, then screen it back". *)
Definition drawGlow (p : Settings) (c : Canvas) : Canvas :=
  if ngt (glow p) (ofZ 0) then
    let c := save c in
    let c := set_globalCompositeOperation screen c in
    let c :=
      set_filter
        [blur_fn (glow p);
         brightness_fn (nadd (ofZ 1) (intensity p));
         saturate_fn (nadd (ofZ 1) (nmul (intensity p) (lit (4 # 10))))] c in
    let c := drawCanvas (ofZ 0) (ofZ 0) c in
    restore c
  else c.

(** "Vignette". *)
Definition drawVignette (p : Settings) (c : Canvas) : Canvas :=
  let W := ofZ (size p) in
  let H := ofZ (size p) in
  if ngt (vignette p) (ofZ 0) then
    let vg :=
      RadialGradient (ndiv W (ofZ 2)) (ndiv H (ofZ 2))
                     (nmul W (nsub (ofZ 1) (vignette p)))
                     (ndiv W (ofZ 2)) (ndiv H (ofZ 2))
                     (nmul W (lit (75 # 100))) [] in
    let vg := addColorStop vg (ofZ 0) (rgba 0 0 0 (ofZ 0)) in
    let vg := addColorStop vg (ofZ 1) (rgba 0 0 0 (lit (55 # 100))) in
    let c := set_fillStyle vg c in
    fillRect (ofZ 0) (ofZ 0) W H c
  else c.

(** The stages inside [if (img) { ... }], in the order of the source. *)
Definition image_stages (img : HTMLImageElement) (p : Settings)
    : list (Canvas -> Canvas) :=
  let W := ofZ (size p) in
  let H := ofZ (size p) in
  [ drawBase img p;
    drawTint p;
    drawGlow p;
    (fun c => drawParticles c W H (particles p) (intensity p));
    (fun c => if lightning p then drawLightning c W H 6 (intensity p) else c);
    drawVignette p ].

Definition run_stages (l : list (Canvas -> Canvas)) (c : Canvas) : Canvas :=
  fold_left (fun acc f => f acc) l c.

(** [draw] on a mounted canvas with a 2D context (the two guards at its top
    return otherwise); [img] is the component's image, if one was picked. *)
Definition draw (img : option HTMLImageElement) (p : Settings) (cv : Canvas)
    : Canvas :=
  let c := drawBackground p cv in
  match img with
  | Some im => run_stages (image_stages im p) c
  | None => c
  end.

End Render.

(** A polynomial stand-in for the platform's cosine and sine, to evaluate the
    pass on concrete inputs; no theorem depends on its values. *)
Definition poly_cos (a : number) : number :=
  match a with
  | Fin x => Fin (Qred (1 - x * x / 2 + x * x * x * x / 24))
  | _ => NaN
  end.

Definition poly_sin (a : number) : number :=
  match a with
  | Fin x => Fin (Qred (x - x * x * x / 6 + x * x * x * x * x / 120))
  | _ => NaN
  end.

(** A canvas as the browser creates it: 300 by 150, nothing painted. *)
Definition fresh_canvas : Canvas := mkCanvas 300 150 default_state [] [] [].

(** A 512 by 512 picture. *)
Definition sample_image : HTMLImageElement := mkImage 512 512 [].

(** ** Vocabulary of the properties *)

(** The state [seeded] starts from: the seed as an unsigned 32-bit integer,
    with 1 in place of 0. *)
Definition seed_state (seed : number) : Z :=
  let u := ToUint32 seed in
  if u =? 0 then 1 else u.

(** The first [n] outputs of the congruential generator started at [z]. *)
Fixpoint lcg_draws (n : nat) (z : Z) : list Q :=
  match n with
  | O => []
  | S k => lcg_out (lcg_next z) :: lcg_draws k (lcg_next z)
  end.

(** The particle layer paints with [fill], the lightning layer with
    [stroke]; no other stage uses either. *)
Definition is_fill (p : Paint) : bool :=
  match p with FillPath _ _ => true | _ => false end.

Definition is_stroke (p : Paint) : bool :=
  match p with StrokePath _ _ => true | _ => false end.

Definition fills (c : Canvas) : nat := length (List.filter is_fill (surface c)).
Definition strokes (c : Canvas) : nat := length (List.filter is_stroke (surface c)).

(** The compositing operator and the filter are in their neutral state. *)
Definition neutral (c : Canvas) : Prop :=
  globalCompositeOperation (ctx c) = source_over /\ filter (ctx c) = filter_none.

(** [c'] was obtained from [c] by painting more: nothing painted is lost. *)
Definition extends (c c' : Canvas) : Prop :=
  exists l, surface c' = surface c ++ l.

(** A stage that paints neither particles nor bolts, loses nothing painted
    before it and keeps a neutral operator and filter neutral. *)
Definition plain_stage (f : Canvas -> Canvas) : Prop :=
  forall c : Canvas,
    extends c (f c)
    /\ fills (f c) = fills c
    /\ strokes (f c) = strokes c
    /\ (neutral c -> neutral (f c)).

(** ** Vocabulary of the further properties *)

Definition with_lightning (b : bool) (p : Settings) : Settings :=
  mkSettings (size p) (glow p) (intensity p) (cyanize p) (contrast p)
             (saturation p) (vignette p) (particles p) b (background p).

Definition with_particles (n : Z) (p : Settings) : Settings :=
  mkSettings (size p) (glow p) (intensity p) (cyanize p) (contrast p)
             (saturation p) (vignette p) n (lightning p) (background p).

(** The open polygon through [pts]: a move to the first point, a line to
    each of the others. *)
Definition polyline (pts : list (number * number)) : list PathCmd :=
  match pts with
  | [] => []
  | (x, y) :: rest => MoveTo x y :: map (fun q => LineTo (fst q) (snd q)) rest
  end.

(** The drawing state of the two strokes of a bolt, from the state the bolt
    was entered with: the wide blurred pass and the thin sharp one. *)
Definition glow_stroke (intensity : number) (st : DrawState) : DrawState :=
  mkDrawState (globalCompositeOperation st)
              [blur_fn (nadd (ofZ 8) (nmul (ofZ 10) intensity))]
              (fillStyle st)
              (Solid (rgba 120 220 255 (lit (55 # 100)))) (ofZ 6).

Definition core_stroke (st : DrawState) : DrawState :=
  mkDrawState (globalCompositeOperation st) filter_none (fillStyle st)
              (Solid (rgba 200 255 255 (lit (9 # 10)))) (ofZ 2).

(** What a painting call is, how it is composited and whether a filter is
    on: enough to read the order of the layers off a surface. *)
Inductive Kind : Type := KClear | KFillRect | KImage | KCanvas | KFill | KStroke.

Definition kind_of (p : Paint) : Kind :=
  match p with
  | ClearRect _ _ _ _ => KClear
  | FillRect _ _ _ _ _ => KFillRect
  | DrawImage _ _ _ _ _ _ _ _ _ _ => KImage
  | DrawCanvas _ _ _ => KCanvas
  | FillPath _ _ => KFill
  | StrokePath _ _ => KStroke
  end.

Definition paint_state (p : Paint) : option DrawState :=
  match p with
  | ClearRect _ _ _ _ => None
  | FillRect _ _ _ _ st => Some st
  | DrawImage _ _ _ _ _ _ _ _ _ st => Some st
  | DrawCanvas _ _ st => Some st
  | FillPath _ st => Some st
  | StrokePath _ st => Some st
  end.

Definition has_filter (st : DrawState) : bool :=
  match filter st with [] => false | _ :: _ => true end.

Definition Tag : Type := (Kind * option (CompositeOp * bool))%type.

Definition tag (p : Paint) : Tag :=
  (kind_of p,
   option_map (fun st => (globalCompositeOperation st, has_filter st))
              (paint_state p)).

(** A sparkle of the particle layer on a surface of [w] by [h]: a full
    circle centred on the surface, of radius between 2 and 10.8, filled with
    a radial gradient from white, at an opacity between 0.35 and 0.8, to
    transparent blue; [st0] is the drawing state it was painted over. *)
Definition sparkle (w h : Q) (st0 : DrawState) (p : Paint) : Prop :=
  exists x y r a : Q,
    p = FillPath
          [Arc (Fin x) (Fin y) (Fin r) (ofZ 0) (nmul Math_PI (ofZ 2))]
          (mkDrawState (globalCompositeOperation st0) (filter st0)
             (RadialGradient (Fin x) (Fin y) (ofZ 0) (Fin x) (Fin y) (Fin r)
                [(ofZ 0, rgba 255 255 255 (Fin a));
                 (ofZ 1, rgba 100 220 255 (ofZ 0))])
             (strokeStyle st0) (lineWidth st0))
    /\ (0 <= x < w)%Q /\ (0 <= y < h)%Q
    /\ (2 <= r < 54 # 5)%Q /\ (7 # 20 <= a < 4 # 5)%Q.

(** A stage that, entered in the neutral state, adds painting calls tagged
    [T], returns in the neutral state and changes neither the saved states
    nor the size of the canvas. *)
Definition paints_tagged (f : Canvas -> Canvas) (T : list Tag) : Prop :=
  forall c : Canvas,
    neutral c ->
    neutral (f c)
    /\ map tag (surface (f c)) = map tag (surface c) ++ T
    /\ saved (f c) = saved c
    /\ cv_width (f c) = cv_width c
    /\ cv_height (f c) = cv_height c.

(** The tags of the layers. *)
Definition tag_clear : Tag := (KClear, None).
Definition tag_backdrop : Tag := (KFillRect, Some (source_over, false)).
Definition tag_image : Tag := (KImage, Some (source_over, true)).
Definition tag_tint : Tag := (KFillRect, Some (screen, false)).
Definition tag_glow : Tag := (KCanvas, Some (screen, true)).
Definition tag_sparkle : Tag := (KFill, Some (screen, false)).
Definition tag_bolt_glow : Tag := (KStroke, Some (screen, true)).
Definition tag_bolt_core : Tag := (KStroke, Some (screen, false)).
Definition tag_vignette : Tag := (KFillRect, Some (source_over, false)).

(** The tags of a whole render with an image, layer by layer. *)
Definition layers (p : Settings) : list Tag :=
  [tag_clear]
  ++ match background p with dark => [tag_backdrop] | transparent => [] end
  ++ [tag_image; tag_tint]
  ++ (if ngt (glow p) (ofZ 0) then [tag_glow] else [])
  ++ repeat tag_sparkle (Z.to_nat (particles p))
  ++ (if lightning p
      then concat (repeat [tag_bolt_glow; tag_bolt_core] 6)
      else [])
  ++ (if ngt (vignette p) (ofZ 0) then [tag_vignette] else []).

(** What the two procedural layers put on a surface, apart from the drawing
    state they were painted under: for every filled path its path and its
    fill style (the position, radius and gradient of a sparkle), for every
    stroked path its path (the points of a bolt). *)
Definition sparkle_geoms (l : list Paint) : list (list PathCmd * Style) :=
  flat_map (fun p => match p with
                     | FillPath path st => [(path, fillStyle st)]
                     | _ => []
                     end) l.

Definition bolt_paths (l : list Paint) : list (list PathCmd) :=
  flat_map (fun p => match p with
                     | StrokePath path _ => [path]
                     | _ => []
                     end) l.

(** * Properties *)

(** ** Arithmetic of [number] on integers *)

Lemma Qred_inject_Z (z : Z) : Qred (inject_Z z) = inject_Z z.
Proof.
  unfold Qred, inject_Z.
  pose proof (Z.ggcd_correct_divisors z 1) as Hd.
  pose proof (Z.ggcd_gcd z 1) as Hg.
  destruct (Z.ggcd z 1) as [g [aa bb]]; simpl in *.
  rewrite Z.gcd_1_r in Hg. subst g.
  destruct Hd as [Ha Hb].
  rewrite Z.mul_1_l in Ha, Hb. subst aa bb. reflexivity.
Qed.

Lemma Fin_Qred (x y : Q) : x == y -> Fin (Qred x) = Fin (Qred y).
Proof. intros H. f_equal. now apply Qred_complete. Qed.

Lemma Fin_Qred_Z (x : Q) (z : Z) : x == inject_Z z -> Fin (Qred x) = ofZ z.
Proof.
  intros H. unfold ofZ. rewrite <- (Qred_inject_Z z). now apply Fin_Qred.
Qed.

Lemma nadd_ofZ (a b : Z) : nadd (ofZ a) (ofZ b) = ofZ (a + b).
Proof. apply Fin_Qred_Z. now rewrite inject_Z_plus. Qed.

Lemma nsub_ofZ (a b : Z) : nsub (ofZ a) (ofZ b) = ofZ (a - b).
Proof.
  apply Fin_Qred_Z. unfold Z.sub, Qminus.
  now rewrite inject_Z_plus, inject_Z_opp.
Qed.

Lemma nmul_ofZ (a b : Z) : nmul (ofZ a) (ofZ b) = ofZ (a * b).
Proof. apply Fin_Qred_Z. now rewrite inject_Z_mult. Qed.

Lemma Qcompare_inject_Z (a b : Z) :
  (inject_Z a ?= inject_Z b)%Q = (a ?= b)%Z.
Proof. unfold Qcompare, inject_Z; simpl. now rewrite !Z.mul_1_r. Qed.

Lemma ndiv_ofZ_same (w : Z) : w <> 0 -> ndiv (ofZ w) (ofZ w) = ofZ 1.
Proof.
  intros Hw. unfold ndiv, ofZ.
  change 0%Q with (inject_Z 0). rewrite Qcompare_inject_Z.
  assert (Hq : ~ inject_Z w == inject_Z 0).
  { rewrite Qeq_alt, Qcompare_inject_Z. now rewrite Z.compare_eq_iff. }
  destruct (w ?= 0) eqn:E.
  - apply Z.compare_eq_iff in E. contradiction.
  - apply Fin_Qred_Z. field. exact Hq.
  - apply Fin_Qred_Z. field. exact Hq.
Qed.

Lemma Math_floor_ofZ (z : Z) : Math_floor (ofZ z) = ofZ z.
Proof. unfold Math_floor, ofZ. now rewrite Qfloor_Z. Qed.

Lemma truncate_inject_Z (z : Z) : truncate (inject_Z z) = z.
Proof.
  unfold truncate. destruct (Qle_bool 0 (inject_Z z)).
  - apply Qfloor_Z.
  - apply Qceiling_Z.
Qed.

Lemma ToUint32_ofZ (z : Z) : ToUint32 (ofZ z) = z mod two32.
Proof. unfold ToUint32, ofZ. now rewrite truncate_inject_Z. Qed.

Lemma ToUint32_range (a : number) : 0 <= ToUint32 a < two32.
Proof.
  destruct a; simpl; try (unfold two32; lia).
  apply Z.mod_pos_bound. unfold two32. lia.
Qed.

Lemma ToInt32_range (a : number) : - two31 <= ToInt32 a < two31.
Proof.
  unfold ToInt32. pose proof (ToUint32_range a) as H.
  destruct (ToUint32 a <? two31) eqn:E.
  - apply Z.ltb_lt in E. unfold two31 in *. lia.
  - apply Z.ltb_ge in E. unfold two31, two32 in *. lia.
Qed.

Lemma ToInt32_ofZ (z : Z) : - two31 <= z < two31 -> ToInt32 (ofZ z) = z.
Proof.
  intros H. unfold ToInt32. rewrite ToUint32_ofZ.
  unfold two31, two32 in *.
  destruct (Z_lt_le_dec z 0) as [Hn | Hp].
  - replace (z mod 2 ^ 32) with (z + 2 ^ 32).
    + destruct (z + 2 ^ 32 <? 2 ^ 31) eqn:E.
      * apply Z.ltb_lt in E. lia.
      * lia.
    + apply Z.mod_unique with (q := -1); lia.
  - rewrite Z.mod_small by lia.
    destruct (z <? 2 ^ 31) eqn:E.
    + reflexivity.
    + apply Z.ltb_ge in E. lia.
Qed.

(** ToInt32 and ToUint32 of an integer agree modulo 2^32. *)
Lemma ToInt32_mod (a : number) : ToInt32 a mod two32 = ToUint32 a.
Proof.
  unfold ToInt32. pose proof (ToUint32_range a) as H.
  destruct (ToUint32 a <? two31).
  - apply Z.mod_small. exact H.
  - symmetry. apply Z.mod_unique with (q := -1); unfold two32 in *; lia.
Qed.

(** *** Exclusive or stays within 32 signed bits *)

Lemma lxor_small (a b : Z) :
  0 <= a < two31 -> 0 <= b < two31 -> 0 <= Z.lxor a b < two31.
Proof.
  intros Ha Hb.
  assert (H0 : 0 <= Z.lxor a b) by (apply Z.lxor_nonneg; lia).
  split; [exact H0 |].
  destruct (Z.eq_dec (Z.lxor a b) 0) as [E | E].
  - rewrite E. unfold two31. lia.
  - unfold two31. apply Z.log2_lt_pow2; [lia |].
    eapply Z.le_lt_trans; [apply Z.log2_lxor; lia |].
    apply Z.max_lub_lt.
    + destruct (Z.eq_dec a 0) as [-> | Na]; [simpl; lia |].
      apply Z.log2_lt_pow2; unfold two31 in *; lia.
    + destruct (Z.eq_dec b 0) as [-> | Nb]; [simpl; lia |].
      apply Z.log2_lt_pow2; unfold two31 in *; lia.
Qed.

Lemma lxor_int32 (a b : Z) :
  - two31 <= a < two31 -> - two31 <= b < two31 ->
  - two31 <= Z.lxor a b < two31.
Proof.
  intros Ha Hb.
  destruct (Z_lt_le_dec a 0) as [An | Ap]; destruct (Z_lt_le_dec b 0) as [Bn | Bp].
  - rewrite <- (Z.lxor_lnot_lnot a b).
    pose proof (lxor_small (Z.lnot a) (Z.lnot b)) as H.
    rewrite !Z.lnot_eq_pred_opp in *. lia.
  - rewrite <- (Z.lnot_involutive (Z.lxor a b)), Z.lnot_lxor_l.
    pose proof (lxor_small (Z.lnot a) b) as H.
    rewrite (Z.lnot_eq_pred_opp (Z.lxor _ _)).
    rewrite (Z.lnot_eq_pred_opp a) in *. lia.
  - rewrite <- (Z.lnot_involutive (Z.lxor a b)), Z.lnot_lxor_r.
    pose proof (lxor_small a (Z.lnot b)) as H.
    rewrite (Z.lnot_eq_pred_opp (Z.lxor _ _)).
    rewrite (Z.lnot_eq_pred_opp b) in *. lia.
  - pose proof (lxor_small a b). lia.
Qed.

Lemma bitxor_cancel (a w : number) : bitxor (bitxor a w) w = ofZ (ToInt32 a).
Proof.
  unfold bitxor.
  rewrite ToInt32_ofZ
    by (apply lxor_int32; apply ToInt32_range).
  now rewrite Z.lxor_assoc, Z.lxor_nilpotent, Z.lxor_0_r.
Qed.

(** ** The generator *)

Lemma bitand_low24 (a : number) :
  bitand a (ofZ 16777215) = ofZ (ToUint32 a mod 2 ^ 24).
Proof.
  unfold bitand. rewrite (ToInt32_ofZ 16777215) by (unfold two31; lia).
  change 16777215 with (Z.ones 24). rewrite Z.land_ones by lia.
  f_equal. rewrite <- (ToInt32_mod a). unfold two32.
  change (2 ^ 32) with (2 ^ 24 * 256).
  symmetry. apply Z.mod_mod_divide.
  exists 256. lia.
Qed.

Lemma seeded_state (seed : number) :
  seeded seed = mkStream (ofZ (seed_state seed)).
Proof.
  unfold seeded, seed_state, ushr0, or_else, ofZ. f_equal.
  destruct (Z.eqb_spec (ToUint32 seed) 0) as [E | E].
  - rewrite E. reflexivity.
  - destruct (Qeq_bool (inject_Z (ToUint32 seed)) 0) eqn:B; [| reflexivity].
    apply Qeq_bool_iff in B. change 0%Q with (inject_Z 0) in B.
    rewrite Qeq_alt, Qcompare_inject_Z, Z.compare_eq_iff in B. contradiction.
Qed.

Lemma seed_state_range (seed : number) : 0 < seed_state seed < 2 ^ 32.
Proof.
  unfold seed_state. pose proof (ToUint32_range seed) as H. unfold two32 in H.
  destruct (Z.eqb_spec (ToUint32 seed) 0); lia.
Qed.

Lemma lcg_next_range (z : Z) : 0 <= lcg_next z < 2 ^ 32.
Proof. unfold lcg_next. apply Z.mod_pos_bound. lia. Qed.

Lemma rnd_lcg (z : Z) :
  rnd (mkStream (ofZ z)) = (lit (lcg_out (lcg_next z)), mkStream (ofZ (lcg_next z))).
Proof.
  unfold rnd. cbn [lcg_s].
  rewrite nmul_ofZ, nadd_ofZ. unfold ushr0. rewrite ToUint32_ofZ.
  change ((1664525 * z + 1013904223) mod two32) with (lcg_next z).
  rewrite bitand_low24, ToUint32_ofZ.
  unfold two32. rewrite (Z.mod_small (lcg_next z)) by apply lcg_next_range.
  f_equal. unfold ndiv, ofZ, lit, lcg_out.
  change (inject_Z 16777216 ?= 0)%Q with Gt.
  apply Fin_Qred. symmetry. apply (Qmake_Qdiv _ (2 ^ 24)).
Qed.

Lemma draws_lcg (n : nat) (z : Z) :
  draws n (mkStream (ofZ z)) = map lit (lcg_draws n z).
Proof.
  revert z. induction n as [| n IH]; intros z; [reflexivity |].
  cbn [draws lcg_draws map]. rewrite rnd_lcg. now rewrite IH.
Qed.

Lemma lcg_out_range (z : Z) : (0 <= lcg_out z < 1)%Q.
Proof.
  unfold lcg_out, Qle, Qlt; simpl.
  pose proof (Z.mod_pos_bound z (2 ^ 24)) as H. lia.
Qed.

(** Whatever the closure's variable holds, a call returns a value of the
    unit interval. *)
Lemma rnd_unit (g : Stream) :
  exists q, fst (rnd g) = Fin q /\ (0 <= q < 1)%Q.
Proof.
  unfold rnd. cbn [fst].
  set (s1 := ushr0 _).
  rewrite bitand_low24. unfold s1, ushr0. rewrite ToUint32_ofZ.
  set (k := _ mod 2 ^ 24).
  assert (Hk : 0 <= k < 2 ^ 24) by (apply Z.mod_pos_bound; lia).
  unfold ndiv, ofZ. change (inject_Z 16777216 ?= 0)%Q with Gt.
  eexists. split; [reflexivity |].
  rewrite (Qred_correct (inject_Z k / inject_Z 16777216)).
  rewrite <- (Qmake_Qdiv k (2 ^ 24)).
  unfold Qle, Qlt; simpl. lia.
Qed.

(** The state update never leaves the range in which a double holds an
    integer exactly. *)
Lemma lcg_exact (z : Z) :
  0 <= z < 2 ^ 32 -> 0 <= 1664525 * z + 1013904223 < 2 ^ 53.
Proof. lia. Qed.

(** C3. Two streams made from the same seed return the same values for every
    number of calls; seed 0 gives the stream of seed 1; every call updates
    the state by [s := (1664525 * s + 1013904223) mod 2^32] and returns
    [(s & 0xFFFFFF) / 0x1000000], a value of [0, 1). *)
Theorem seeded_stream_is_lcg :
  (forall (seed1 seed2 : number) (n : nat),
      seed1 = seed2 -> draws n (seeded seed1) = draws n (seeded seed2))
  /\ (forall n : nat, draws n (seeded (ofZ 0)) = draws n (seeded (ofZ 1)))
  /\ (forall seed : number,
         seeded seed = mkStream (ofZ (seed_state seed))
         /\ 0 < seed_state seed < 2 ^ 32)
  /\ (forall z : Z,
         rnd (mkStream (ofZ z))
         = (lit (lcg_out (lcg_next z)), mkStream (ofZ (lcg_next z))))
  /\ (forall (seed : number) (n : nat),
         draws n (seeded seed) = map lit (lcg_draws n (seed_state seed)))
  /\ (forall g : Stream, exists q, fst (rnd g) = Fin q /\ (0 <= q < 1)%Q).
Proof.
  repeat split.
  - intros seed1 seed2 n ->. reflexivity.
  - apply seeded_state.
  - apply seed_state_range.
  - apply seed_state_range.
  - apply rnd_lcg.
  - intros seed n. rewrite seeded_state. apply draws_lcg.
  - apply rnd_unit.
Qed.

Lemma seeded_stream_is_lcg_witness :
  draws 5 (seeded (ofZ 12345))
  = draws 5 (seeded (nadd (ofZ 12345) (Math_floor (nmul (ofZ 0) (ofZ 1000))))).
Proof.
  apply (proj1 seeded_stream_is_lcg (ofZ 12345)
               (nadd (ofZ 12345) (Math_floor (nmul (ofZ 0) (ofZ 1000))))
               5%nat).
  reflexivity.
Defined.

(** ** [fitCover] *)

(** C4. For a source of 800 by 400 and a destination of 300 by 300,
    [fitCover] returns the crop of side 400 at (200, 0), and the destination
    square of side 300 at (0, 0); the base stage draws exactly that. *)
Theorem fitCover_800_400 :
  fitCover (ofZ 800) (ofZ 400) (ofZ 300) (ofZ 300)
  = mkFit (ofZ 200) (ofZ 0) (ofZ 400) (ofZ 0) (ofZ 0) (ofZ 300)
  /\ (forall (px : list Z) (p : Settings) (c : Canvas),
         size p = 300 ->
         surface (drawBase (mkImage 800 400 px) p c)
         = surface c
           ++ [DrawImage (mkImage 800 400 px)
                 (ofZ 200) (ofZ 0) (ofZ 400) (ofZ 400)
                 (ofZ 0) (ofZ 0) (ofZ 300) (ofZ 300)
                 (ctx (set_filter [contrast_fn (contrast p);
                                   saturate_fn (saturation p)] c))]).
Proof.
  split; [reflexivity |].
  intros px p c Hs. unfold drawBase. cbn [width height]. rewrite Hs.
  reflexivity.
Qed.

Lemma fitCover_800_400_witness :
  surface (drawBase (mkImage 800 400 []) (with_size 300 defaults) fresh_canvas)
  = [DrawImage (mkImage 800 400 [])
       (ofZ 200) (ofZ 0) (ofZ 400) (ofZ 400)
       (ofZ 0) (ofZ 0) (ofZ 300) (ofZ 300)
       (mkDrawState source_over
          [contrast_fn (lit (11 # 10)); saturate_fn (lit (125 # 100))]
          (Solid black) (Solid black) (ofZ 1))].
Proof.
  apply (proj2 fitCover_800_400 [] (with_size 300 defaults) fresh_canvas).
  reflexivity.
Defined.

Lemma fitCover_square (n w : Z) :
  w <> 0 ->
  fitCover (ofZ n) (ofZ n) (ofZ w) (ofZ w)
  = mkFit (ofZ 0) (ofZ 0) (ofZ n) (ofZ 0) (ofZ 0) (ofZ w).
Proof.
  intros Hw. unfold fitCover. rewrite (ndiv_ofZ_same w Hw).
  assert (Hgt : ngt (ndiv (ofZ n) (ofZ n)) (ofZ 1) = false).
  { destruct (Z.eq_dec n 0) as [-> | Hn].
    - reflexivity.
    - rewrite (ndiv_ofZ_same n Hn). reflexivity. }
  rewrite Hgt, nmul_ofZ, Z.mul_1_r, Math_floor_ofZ, nsub_ofZ, Z.sub_diag.
  reflexivity.
Qed.

(** C5, as the code has it.  For a square source and a square destination of
    non-zero side nothing is cropped: the crop starts at (0, 0) and its side
    is the side of the source.  [draw] only ever asks for a square
    destination. *)
Theorem fitCover_square_source :
  forall n w : Z,
    w <> 0 ->
    sx (fitCover (ofZ n) (ofZ n) (ofZ w) (ofZ w)) = ofZ 0
    /\ sy (fitCover (ofZ n) (ofZ n) (ofZ w) (ofZ w)) = ofZ 0
    /\ s (fitCover (ofZ n) (ofZ n) (ofZ w) (ofZ w)) = ofZ n
    /\ (forall (px : list Z) (p : Settings) (c : Canvas),
           size p = w ->
           surface (drawBase (mkImage n n px) p c)
           = surface c
             ++ [DrawImage (mkImage n n px)
                   (ofZ 0) (ofZ 0) (ofZ n) (ofZ n)
                   (ofZ 0) (ofZ 0) (ofZ w) (ofZ w)
                   (ctx (set_filter [contrast_fn (contrast p);
                                     saturate_fn (saturation p)] c))]).
Proof.
  intros n w Hw. rewrite (fitCover_square n w Hw). repeat split.
  intros px p c Hs. unfold drawBase. cbn [width height]. rewrite Hs.
  rewrite (fitCover_square n w Hw). reflexivity.
Qed.

Lemma fitCover_square_source_witness :
  sx (fitCover (ofZ 400) (ofZ 400) (ofZ 1024) (ofZ 1024)) = ofZ 0
  /\ sy (fitCover (ofZ 400) (ofZ 400) (ofZ 1024) (ofZ 1024)) = ofZ 0
  /\ s (fitCover (ofZ 400) (ofZ 400) (ofZ 1024) (ofZ 1024)) = ofZ 400
  /\ surface (drawBase (mkImage 400 400 []) defaults fresh_canvas)
     = [DrawImage (mkImage 400 400 [])
          (ofZ 0) (ofZ 0) (ofZ 400) (ofZ 400)
          (ofZ 0) (ofZ 0) (ofZ 1024) (ofZ 1024)
          (mkDrawState source_over
             [contrast_fn (lit (11 # 10)); saturate_fn (lit (125 # 100))]
             (Solid black) (Solid black) (ofZ 1))].
Proof.
  assert (Hw : 1024 <> 0) by lia.
  destruct (fitCover_square_source 400 1024 Hw) as (H1 & H2 & H3 & H4).
  split; [exact H1 | split; [exact H2 | split; [exact H3 |]]].
  apply (H4 [] defaults fresh_canvas). reflexivity.
Defined.

(** C5, as the specification words it, fails: a square source of side 400
    fitted to a destination of 300 by 600 is cropped to side 200 at
    (100, 0). *)
Lemma fitCover_square_source_cropped :
  fitCover (ofZ 400) (ofZ 400) (ofZ 300) (ofZ 600)
  = mkFit (ofZ 100) (ofZ 0) (ofZ 200) (ofZ 0) (ofZ 0) (ofZ 300)
  /\ ~ (sx (fitCover (ofZ 400) (ofZ 400) (ofZ 300) (ofZ 600)) = ofZ 0
        /\ sy (fitCover (ofZ 400) (ofZ 400) (ofZ 300) (ofZ 600)) = ofZ 0
        /\ s (fitCover (ofZ 400) (ofZ 400) (ofZ 300) (ofZ 600)) = ofZ 400).
Proof.
  split; [reflexivity |].
  intros [H _]. vm_compute in H. discriminate H.
Qed.

(** ** [clamp] *)

Lemma clamp_above (v : number) :
  nlt (ofZ 1) v = true -> clamp v (ofZ 0) (ofZ 1) = ofZ 1.
Proof. intros H. unfold clamp, Math_min. rewrite H. reflexivity. Qed.

Lemma Math_max_0_unit (x : Q) :
  (x <= 1)%Q ->
  exists q, Math_max (ofZ 0) (Fin x) = Fin q /\ (0 <= q <= 1)%Q.
Proof.
  intros Hx. unfold Math_max, nlt, neq, ofZ.
  change (inject_Z 0) with 0%Q.
  destruct (Qcompare_spec x 0) as [E | L | G].
  - rewrite (proj1 (Qeq_alt 0 x)) by (symmetry; exact E).
    assert (B : Qeq_bool 0 x = true) by (apply Qeq_bool_iff; symmetry; exact E).
    rewrite B. exists 0%Q. split; [reflexivity | lra].
  - exists 0%Q. split; [reflexivity | lra].
  - rewrite (proj1 (Qlt_alt 0 x) G).
    exists x. split; [reflexivity | lra].
Qed.

Lemma clamp_unit (v : number) :
  v <> NaN ->
  exists q, clamp v (ofZ 0) (ofZ 1) = Fin q /\ (0 <= q <= 1)%Q.
Proof.
  intros Hv. destruct v as [x | | |].
  - unfold clamp, Math_min, nlt, neq, ofZ.
    change (inject_Z 1) with 1%Q.
    destruct (Qcompare_spec 1 x) as [E | L | G].
    + rewrite (proj1 (Qeq_alt x 1)) by (symmetry; exact E).
      assert (B : Qeq_bool 1 x = true) by (apply Qeq_bool_iff; exact E).
      rewrite B. exists 1%Q. split; [reflexivity | lra].
    + exists 1%Q. split; [reflexivity | lra].
    + rewrite (proj1 (Qlt_alt x 1) G).
      apply Math_max_0_unit. lra.
  - exists 1%Q. split; [reflexivity | lra].
  - exists 0%Q. split; [reflexivity | lra].
  - contradiction.
Qed.

(** ** The particle seed *)

Lemma particle_seed_square (W intensity : number) :
  particle_seed W W intensity
  = ofZ (ToInt32 (Math_floor (nmul intensity (ofZ 1000000)))).
Proof. unfold particle_seed. apply bitxor_cancel. Qed.

(** ** Loops *)

Lemma repeat_loop_succ {A : Type} (f : A -> A) (n : nat) (a : A) :
  repeat_loop (S n) f a = f (repeat_loop n f a).
Proof.
  revert a. induction n as [| n IH]; intros a; [reflexivity |].
  change (repeat_loop (S (S n)) f a) with (repeat_loop (S n) f (f a)).
  rewrite IH. reflexivity.
Qed.

Ltac next_rnd :=
  match goal with
  | |- context [rnd ?g] => destruct (rnd g) as [? ?]
  end.

Ltac canvas_unfold :=
  unfold set_globalCompositeOperation, set_filter, set_fillStyle,
    set_strokeStyle, set_lineWidth, clearRect, fillRect, drawImage,
    drawCanvas, beginPath, moveTo, lineTo, arc, fill, stroke, save, restore,
    paint, with_ctx, with_path;
  cbn [ctx saved surface cur_path cv_width cv_height
       globalCompositeOperation filter fillStyle strokeStyle lineWidth].

(** ** What the drawing primitives leave alone *)

Lemma extends_refl (c : Canvas) : extends c c.
Proof. exists []. now rewrite app_nil_r. Qed.

Lemma extends_trans (a b c : Canvas) : extends a b -> extends b c -> extends a c.
Proof.
  intros [l Hl] [m Hm]. exists (l ++ m). now rewrite Hm, Hl, app_assoc.
Qed.

Lemma extends_In (c c' : Canvas) (p : Paint) :
  extends c c' -> In p (surface c) -> In p (surface c').
Proof. intros [l ->] H. apply in_or_app. now left. Qed.

Lemma fills_app (c c' : Canvas) (l : list Paint) :
  surface c' = surface c ++ l ->
  fills c' = (fills c + length (List.filter is_fill l))%nat.
Proof. intros H. unfold fills. now rewrite H, filter_app, length_app. Qed.

Lemma strokes_app (c c' : Canvas) (l : list Paint) :
  surface c' = surface c ++ l ->
  strokes c' = (strokes c + length (List.filter is_stroke l))%nat.
Proof. intros H. unfold strokes. now rewrite H, filter_app, length_app. Qed.

Lemma path_from_frame (pts : list (number * number)) :
  forall (i : nat) (c : Canvas),
    ctx (path_from i pts c) = ctx c
    /\ saved (path_from i pts c) = saved c
    /\ surface (path_from i pts c) = surface c.
Proof.
  induction pts as [| [x y] rest IH]; intros i c; cbn [path_from].
  - repeat split.
  - destruct (IH (S i) (match i with
                        | O => moveTo x y c
                        | S _ => lineTo x y c
                        end)) as (H1 & H2 & H3).
    rewrite H1, H2, H3. destruct i; repeat split.
Qed.

Lemma path_frame (c : Canvas) (pts : list (number * number)) :
  ctx (path c pts) = ctx c
  /\ saved (path c pts) = saved c
  /\ surface (path c pts) = surface c.
Proof.
  unfold path. destruct (path_from_frame pts 0 (beginPath c)) as (H1 & H2 & H3).
  rewrite H1, H2, H3. repeat split.
Qed.

(** ** The particle layer *)

(** One particle: one filled path more, the saved states and the
    compositing operator and filter untouched, four values consumed. *)
Lemma particle_effect (W H : number) (c : Canvas) (g : Stream) :
  saved (fst (particle W H (c, g))) = saved c
  /\ globalCompositeOperation (ctx (fst (particle W H (c, g))))
     = globalCompositeOperation (ctx c)
  /\ filter (ctx (fst (particle W H (c, g)))) = filter (ctx c)
  /\ (exists p, is_fill p = true
                /\ surface (fst (particle W H (c, g))) = surface c ++ [p])
  /\ snd (particle W H (c, g)) = advance 4 g.
Proof.
  unfold particle. cbn [advance].
  repeat (next_rnd; cbn [fst snd]). canvas_unfold.
  repeat split. eexists. split; [| reflexivity]. reflexivity.
Qed.

Lemma advance_add (n m : nat) (g : Stream) :
  advance (n + m) g = advance m (advance n g).
Proof.
  revert g. induction n as [| n IH]; intros g; [reflexivity |].
  cbn [Nat.add advance]. apply IH.
Qed.

Lemma particles_effect (W H : number) (n : nat) (c : Canvas) (g : Stream) :
  let r := repeat_loop n (particle W H) (c, g) in
  saved (fst r) = saved c
  /\ globalCompositeOperation (ctx (fst r)) = globalCompositeOperation (ctx c)
  /\ filter (ctx (fst r)) = filter (ctx c)
  /\ extends c (fst r)
  /\ fills (fst r) = (fills c + n)%nat
  /\ strokes (fst r) = strokes c
  /\ snd r = advance (4 * n) g.
Proof.
  induction n as [| n IH].
  - cbn. rewrite Nat.add_0_r. repeat split. apply extends_refl.
  - rewrite repeat_loop_succ. cbv zeta in IH |- *.
    destruct (repeat_loop n (particle W H) (c, g)) as [c1 g1].
    cbn [fst snd] in IH. destruct IH as (I1 & I2 & I3 & I4 & I5 & I6 & I7).
    destruct (particle_effect W H c1 g1) as (P1 & P2 & P3 & (p & Pf & Ps) & P5).
    rewrite P1, P2, P3, P5.
    repeat split; try assumption.
    + eapply extends_trans; [exact I4 |]. now exists [p].
    + rewrite (fills_app _ _ _ Ps). cbn. rewrite Pf. cbn. lia.
    + rewrite (strokes_app _ _ _ Ps). cbn.
      destruct p; try discriminate Pf. cbn. lia.
    + subst g1. replace (4 * S n)%nat with (4 * n + 4)%nat by lia.
      now rewrite advance_add.
Qed.

(** [drawParticles] hands back the drawing state it was given. *)
Lemma drawParticles_effect (c : Canvas) (W H : number) (count : Z)
    (intensity : number) :
  ctx (drawParticles c W H count intensity) = ctx c
  /\ saved (drawParticles c W H count intensity) = saved c
  /\ extends c (drawParticles c W H count intensity)
  /\ fills (drawParticles c W H count intensity)
     = (fills c + Z.to_nat count)%nat
  /\ strokes (drawParticles c W H count intensity) = strokes c.
Proof.
  unfold drawParticles.
  pose proof (particles_effect W H (Z.to_nat count)
                (set_globalCompositeOperation screen (save c))
                (seeded (particle_seed W H intensity))) as E.
  cbv zeta in E.
  destruct (repeat_loop _ _ _) as [c1 g1]. cbn [fst snd] in E.
  destruct E as (E1 & _ & _ & E4 & E5 & E6 & _).
  unfold restore. rewrite E1. cbn [saved set_globalCompositeOperation
    with_ctx save ctx cv_width cv_height cur_path surface].
  repeat split.
  - destruct E4 as [l Hl]. exists l. exact Hl.
  - exact E5.
  - exact E6.
Qed.

(** ** Ranges of the lightning step *)

Lemma perturbation_range (q : Q) :
  (0 <= q < 1)%Q ->
  exists e, perturbation (Fin q) = Fin e /\ (- (1 # 4) <= e < 1 # 4)%Q.
Proof.
  intros Hq. unfold perturbation, nmul, nsub, lit.
  change (Qred (5 # 10)) with (1 # 2).
  eexists. split; [reflexivity |].
  rewrite (Qred_correct (Qred (q - (1 # 2)) * (1 # 2))).
  rewrite (Qred_correct (q - (1 # 2))). lra.
Qed.

Lemma jitter_offset_range (q j : Q) :
  (0 <= q < 1)%Q -> (0 <= j)%Q ->
  exists e, jitter_offset (Fin q) (Fin j) = Fin e
            /\ (- (j / 2) <= e <= j / 2)%Q.
Proof.
  intros Hq Hj. unfold jitter_offset, nmul, nsub, lit.
  change (Qred (5 # 10)) with (1 # 2).
  eexists. split; [reflexivity |].
  rewrite (Qred_correct (Qred (q - (1 # 2)) * j)).
  rewrite (Qred_correct (q - (1 # 2))).
  assert (H1 : (0 <= q * j)%Q) by (apply Qmult_le_0_compat; lra).
  assert (H2 : (0 <= (1 - q) * j)%Q) by (apply Qmult_le_0_compat; lra).
  split.
  - setoid_replace ((q - (1 # 2)) * j)%Q with (q * j - j / 2)%Q by field. lra.
  - setoid_replace ((q - (1 # 2)) * j)%Q with (j / 2 - (1 - q) * j)%Q by field.
    lra.
Qed.

Lemma Qfloor_scaled_unit (q : Q) (k : Z) :
  (0 <= q < 1)%Q -> 0 < k ->
  0 <= Qfloor (Qred (q * inject_Z k)) < k.
Proof.
  intros Hq Hk.
  assert (K : (0 < inject_Z k)%Q) by (change 0%Q with (inject_Z 0); now rewrite <- Zlt_Qlt).
  assert (L : (0 <= Qred (q * inject_Z k))%Q).
  { rewrite Qred_correct. apply Qmult_le_0_compat; lra. }
  assert (U : (Qred (q * inject_Z k) < inject_Z k)%Q).
  { rewrite Qred_correct.
    setoid_replace (inject_Z k) with (1 * inject_Z k)%Q at 2 by ring.
    apply Qmult_lt_compat_r; lra. }
  split.
  - change 0 with (Qfloor 0). now apply Qfloor_resp_le.
  - rewrite Zlt_Qlt. eapply Qle_lt_trans; [apply Qfloor_le | exact U].
Qed.

Ltac unit_rnd g q R :=
  let E := fresh "E" in
  destruct (rnd_unit g) as (q & E & R);
  destruct (rnd g) as [? ?]; cbn [fst snd] in E |- *; subst.

(** The jitter magnitude of a branch is [10 + 30 * rnd()]: between 10 and
    40. *)
Lemma branch_jitter_range (W H intensity : number) (g : Stream) :
  exists j, jitter (branch_setup W H intensity g) = Fin j /\ (10 <= j < 40)%Q.
Proof.
  unfold branch_setup.
  unit_rnd g q1 R1.
  match goal with |- context [rnd ?g] => unit_rnd g q2 R2 end.
  match goal with |- context [rnd ?g] => unit_rnd g q3 R3 end.
  match goal with |- context [rnd ?g] => unit_rnd g q4 R4 end.
  match goal with |- context [rnd ?g] => unit_rnd g q5 R5 end.
  match goal with |- context [rnd ?g] => unit_rnd g q6 R6 end.
  cbn [jitter]. unfold nadd, nmul, ofZ.
  eexists. split; [reflexivity |].
  rewrite (Qred_correct (inject_Z 10 + Qred (inject_Z 30 * q5))).
  rewrite (Qred_correct (inject_Z 30 * q5)).
  change (inject_Z 10) with 10%Q. change (inject_Z 30) with 30%Q. lra.
Qed.

(** A branch has between 15 and 32 segments: the inner loop of
    [drawLightning] runs that many turns. *)
Lemma branch_segments_range (W H intensity : number) (g : Stream) :
  exists k, segments (branch_setup W H intensity g) = ofZ k
            /\ 15 <= k <= 32
            /\ turns_upto (segments (branch_setup W H intensity g))
               = Z.to_nat k.
Proof.
  unfold branch_setup.
  unit_rnd g q1 R1.
  match goal with |- context [rnd ?g] => unit_rnd g q2 R2 end.
  match goal with |- context [rnd ?g] => unit_rnd g q3 R3 end.
  match goal with |- context [rnd ?g] => unit_rnd g q4 R4 end.
  match goal with |- context [rnd ?g] => unit_rnd g q5 R5 end.
  match goal with |- context [rnd ?g] => unit_rnd g q6 R6 end.
  cbn [segments].
  assert (F : 0 <= Qfloor (Qred (q4 * inject_Z 18)) < 18)
    by (apply Qfloor_scaled_unit; [exact R4 | lia]).
  exists (15 + Qfloor (Qred (q4 * inject_Z 18))).
  assert (E : nadd (ofZ 15) (Math_floor (nmul (Fin q4) (ofZ 18)))
              = ofZ (15 + Qfloor (Qred (q4 * inject_Z 18)))).
  { unfold nmul, ofZ at 2, Math_floor. apply nadd_ofZ. }
  rewrite E. repeat split; try lia.
  unfold turns_upto, ofZ. now rewrite Qfloor_Z.
Qed.

Section RenderProperties.

Variable Math_cos Math_sin : number -> number.

(** ** The lightning layer *)

Lemma step_effect (angle len segments jitter x y : number) (g : Stream) :
  let st := step Math_cos Math_sin angle len segments jitter x y g in
  exists u1 u2 u3 u4 : Q,
    draws 4 g = [Fin u1; Fin u2; Fin u3; Fin u4]
    /\ ((0 <= u1 < 1) /\ (0 <= u2 < 1) /\ (0 <= u3 < 1) /\ (0 <= u4 < 1))%Q
    /\ heading_x st = nadd angle (perturbation (Fin u1))
    /\ heading_y st = nadd angle (perturbation (Fin u2))
    /\ jitter_x st = jitter_offset (Fin u3) jitter
    /\ jitter_y st = jitter_offset (Fin u4) jitter
    /\ step_x st
       = nadd (nadd x (nmul (Math_cos (heading_x st)) (ndiv len segments)))
              (jitter_x st)
    /\ step_y st
       = nadd (nadd y (nmul (Math_sin (heading_y st)) (ndiv len segments)))
              (jitter_y st)
    /\ step_rnd st = advance 4 g.
Proof.
  unfold step. cbn [draws advance].
  unit_rnd g q1 R1.
  match goal with |- context [rnd ?g] => unit_rnd g q2 R2 end.
  match goal with |- context [rnd ?g] => unit_rnd g q3 R3 end.
  match goal with |- context [rnd ?g] => unit_rnd g q4 R4 end.
  exists q1, q2, q3, q4. cbn. repeat split; tauto.
Qed.

Lemma stroke_path_effect (c : Canvas) (l : list (number * number)) :
  ctx (stroke (path c l)) = ctx c
  /\ saved (stroke (path c l)) = saved c
  /\ surface (stroke (path c l))
     = surface c ++ [StrokePath (cur_path (path c l)) (ctx c)].
Proof.
  destruct (path_frame c l) as (H1 & H2 & H3).
  unfold stroke, paint. cbn [ctx saved surface]. rewrite H1, H2, H3.
  repeat split.
Qed.

(** One bolt: two stroked paths more; the filter is back to none, the
    compositing operator and the saved states are untouched. *)
Lemma bolt_effect (W H intensity : number) (c : Canvas) (g : Stream) :
  let r := bolt Math_cos Math_sin W H intensity (c, g) in
  saved (fst r) = saved c
  /\ globalCompositeOperation (ctx (fst r)) = globalCompositeOperation (ctx c)
  /\ filter (ctx (fst r)) = filter_none
  /\ exists p1 s1 p2 s2,
       surface (fst r) = surface c ++ [StrokePath p1 s1; StrokePath p2 s2].
Proof.
  unfold bolt. cbv zeta. cbn [fst].
  generalize (branch_walk Math_cos Math_sin (branch_setup W H intensity g)).
  intros w.
  set (c1 := set_filter _ (set_lineWidth _ (set_strokeStyle _ c))).
  destruct (stroke_path_effect c1 (pts w)) as (A1 & A2 & A3).
  set (c2 := stroke (path c1 (pts w))) in *.
  set (c3 := set_lineWidth _ (set_strokeStyle _ (set_filter _ c2))).
  destruct (stroke_path_effect c3 (pts w)) as (B1 & B2 & B3).
  rewrite B1, B2, B3.
  unfold c3. canvas_unfold. rewrite A1, A2, A3.
  unfold c1. canvas_unfold.
  repeat split. do 4 eexists. rewrite <- app_assoc. reflexivity.
Qed.

Lemma bolts_effect (W H intensity : number) (n : nat) (c : Canvas)
    (g : Stream) :
  let r := repeat_loop n (bolt Math_cos Math_sin W H intensity) (c, g) in
  saved (fst r) = saved c
  /\ globalCompositeOperation (ctx (fst r)) = globalCompositeOperation (ctx c)
  /\ (filter (ctx c) = filter_none -> filter (ctx (fst r)) = filter_none)
  /\ extends c (fst r)
  /\ fills (fst r) = fills c
  /\ strokes (fst r) = (strokes c + 2 * n)%nat.
Proof.
  induction n as [| n IH].
  - cbn. rewrite Nat.add_0_r. repeat split; auto. apply extends_refl.
  - rewrite repeat_loop_succ. cbv zeta in IH |- *.
    destruct (repeat_loop n _ (c, g)) as [c1 g1].
    cbn [fst snd] in IH. destruct IH as (I1 & I2 & I3 & I4 & I5 & I6).
    destruct (bolt_effect W H intensity c1 g1)
      as (P1 & P2 & P3 & (p1 & s1 & p2 & s2 & Ps)).
    cbv zeta in P1, P2, P3, Ps.
    rewrite P1, P2, P3.
    repeat split; try assumption.
    + eapply extends_trans; [exact I4 |]. eexists. exact Ps.
    + rewrite (fills_app _ _ _ Ps). cbn. lia.
    + rewrite (strokes_app _ _ _ Ps). cbn. lia.
Qed.

(** [drawLightning] hands back the drawing state it was given. *)
Lemma drawLightning_effect (c : Canvas) (W H : number) (branches : Z)
    (intensity : number) :
  let c' := drawLightning Math_cos Math_sin c W H branches intensity in
  ctx c' = ctx c
  /\ saved c' = saved c
  /\ extends c c'
  /\ fills c' = fills c
  /\ strokes c' = (strokes c + 2 * Z.to_nat branches)%nat.
Proof.
  unfold drawLightning. cbv zeta.
  pose proof (bolts_effect W H intensity (Z.to_nat branches)
                (set_globalCompositeOperation screen (save c))
                (seeded (lightning_seed intensity))) as E.
  cbv zeta in E.
  destruct (repeat_loop _ _ _) as [c1 g1]. cbn [fst snd] in E.
  destruct E as (E1 & _ & _ & E4 & E5 & E6).
  unfold restore. rewrite E1. cbn [saved set_globalCompositeOperation
    with_ctx save ctx cv_width cv_height cur_path surface].
  repeat split.
  - destruct E4 as [l Hl]. exists l. exact Hl.
  - exact E5.
  - exact E6.
Qed.

(** ** The stages of [draw] *)

Lemma drawBase_surface (img : HTMLImageElement) (p : Settings) (c : Canvas) :
  let f := fitCover (ofZ (width img)) (ofZ (height img))
                    (ofZ (size p)) (ofZ (size p)) in
  surface (drawBase img p c)
  = surface c
    ++ [DrawImage img (sx f) (sy f) (s f) (s f) (dx f) (dy f) (d f) (d f)
          (ctx (set_filter [contrast_fn (contrast p);
                            saturate_fn (saturation p)] c))].
Proof. reflexivity. Qed.

Ltac plain_stage_tac :=
  canvas_unfold; unfold neutral, extends, fills, strokes;
  cbn [ctx saved surface globalCompositeOperation filter];
  rewrite ?filter_app, ?length_app; cbn;
  repeat split; try tauto; try lia;
  try (eexists; reflexivity).

Lemma drawBase_plain (img : HTMLImageElement) (p : Settings) :
  plain_stage (drawBase img p).
Proof. intros c. unfold drawBase. plain_stage_tac. Qed.

Lemma drawTint_plain (p : Settings) : plain_stage (drawTint p).
Proof. intros c. unfold drawTint. plain_stage_tac. Qed.

Lemma drawGlow_plain (p : Settings) : plain_stage (drawGlow p).
Proof.
  intros c. unfold drawGlow. destruct (ngt (glow p) (ofZ 0)).
  - plain_stage_tac.
  - unfold neutral. repeat split; try tauto. apply extends_refl.
Qed.

Lemma drawVignette_plain (p : Settings) : plain_stage (drawVignette p).
Proof.
  intros c. unfold drawVignette. destruct (ngt (vignette p) (ofZ 0)).
  - plain_stage_tac.
  - unfold neutral. repeat split; try tauto. apply extends_refl.
Qed.

Lemma drawBackground_reset (p : Settings) (cv : Canvas) :
  neutral (drawBackground p cv)
  /\ saved (drawBackground p cv) = []
  /\ fills (drawBackground p cv) = O
  /\ strokes (drawBackground p cv) = O.
Proof.
  unfold drawBackground, neutral. destruct (background p); repeat split.
Qed.

Lemma drawBackground_fresh (p : Settings) (cv1 cv2 : Canvas) :
  drawBackground p cv1 = drawBackground p cv2.
Proof. reflexivity. Qed.

Lemma stage_neutral (img : HTMLImageElement) (p : Settings)
    (f : Canvas -> Canvas) (c : Canvas) :
  In f (image_stages Math_cos Math_sin img p) -> neutral c -> neutral (f c).
Proof.
  unfold image_stages. cbv zeta. cbn [In].
  intros [<- | [<- | [<- | [<- | [<- | [<- | []]]]]]] Hc.
  - now apply drawBase_plain.
  - now apply drawTint_plain.
  - now apply drawGlow_plain.
  - unfold neutral.
    destruct (drawParticles_effect c (ofZ (size p)) (ofZ (size p))
                (particles p) (intensity p)) as (-> & _).
    exact Hc.
  - destruct (lightning p); [| exact Hc].
    unfold neutral.
    destruct (drawLightning_effect c (ofZ (size p)) (ofZ (size p)) 6
                (intensity p)) as (-> & _).
    exact Hc.
  - now apply drawVignette_plain.
Qed.

Lemma run_stages_neutral (l : list (Canvas -> Canvas)) :
  (forall f c, In f l -> neutral c -> neutral (f c)) ->
  forall c, neutral c -> neutral (run_stages l c).
Proof.
  unfold run_stages. induction l as [| f l IH]; intros Hl c Hc; cbn.
  - exact Hc.
  - apply IH.
    + intros g c' Hg. apply Hl. now right.
    + apply Hl; [now left | exact Hc].
Qed.

Lemma In_firstn {A : Type} (x : A) (l : list A) :
  forall k : nat, In x (firstn k l) -> In x l.
Proof.
  induction l as [| a l IH]; intros [| k]; cbn; try tauto.
  intros [-> | H]; [now left | right; now apply (IH k)].
Qed.

Lemma draw_with_image (img : HTMLImageElement) (p : Settings) (cv : Canvas) :
  let W := ofZ (size p) in
  let c3 := drawGlow p (drawTint p (drawBase img p (drawBackground p cv))) in
  let c4 := drawParticles c3 W W (particles p) (intensity p) in
  let c5 := if lightning p
            then drawLightning Math_cos Math_sin c4 W W 6 (intensity p)
            else c4 in
  draw Math_cos Math_sin (Some img) p cv = drawVignette p c5.
Proof. reflexivity. Qed.

(** With an image every stage runs: as many filled discs as [particles]
    asks for and, with lightning on, two strokes for each of the 6 bolts;
    what the base stage painted is still on the surface. *)
Lemma draw_with_image_effect (img : HTMLImageElement) (p : Settings)
    (cv : Canvas) :
  extends (drawBase img p (drawBackground p cv))
          (draw Math_cos Math_sin (Some img) p cv)
  /\ fills (draw Math_cos Math_sin (Some img) p cv) = Z.to_nat (particles p)
  /\ strokes (draw Math_cos Math_sin (Some img) p cv)
     = (if lightning p then 12 else 0)%nat.
Proof.
  rewrite draw_with_image. cbv zeta.
  set (c0 := drawBackground p cv).
  set (c1 := drawBase img p c0).
  set (c2 := drawTint p c1).
  set (c3 := drawGlow p c2).
  set (c4 := drawParticles c3 _ _ _ _).
  set (c5 := if lightning p then _ else c4).
  destruct (drawBackground_reset p cv) as (_ & _ & F0 & S0). fold c0 in F0, S0.
  destruct (drawBase_plain img p c0) as (_ & F1 & S1 & _). fold c1 in F1, S1.
  destruct (drawTint_plain p c1) as (X2 & F2 & S2 & _). fold c2 in X2, F2, S2.
  destruct (drawGlow_plain p c2) as (X3 & F3 & S3 & _). fold c3 in X3, F3, S3.
  destruct (drawParticles_effect c3 (ofZ (size p)) (ofZ (size p))
              (particles p) (intensity p)) as (_ & _ & X4 & F4 & S4).
  fold c4 in X4, F4, S4.
  assert (L : extends c4 c5 /\ fills c5 = fills c4
              /\ strokes c5
                 = (strokes c4 + if lightning p then 12 else 0)%nat).
  { unfold c5. destruct (lightning p).
    - destruct (drawLightning_effect c4 (ofZ (size p)) (ofZ (size p)) 6
                  (intensity p)) as (_ & _ & X5 & F5 & S5).
      cbv zeta in X5, F5, S5. rewrite F5, S5. repeat split. exact X5.
    - repeat split; [apply extends_refl | lia]. }
  destruct L as (X5 & F5 & S5).
  destruct (drawVignette_plain p c5) as (X6 & F6 & S6 & _).
  repeat split.
  - repeat (eapply extends_trans; [eassumption |]). apply extends_refl.
  - rewrite F6, F5, F4, F3, F2, F1, F0. lia.
  - rewrite S6, S5, S4, S3, S2, S1, S0. lia.
Qed.

(** C1, as the code has it.  The particle and the lightning layer sit inside
    [if (img)] with the other image stages: without an image [draw] paints
    the background and nothing else; with an image it paints [particles]
    discs and, when [lightning] is on, the 6 bolts. *)
Theorem particles_and_lightning_need_image :
  (forall (p : Settings) (cv : Canvas),
      draw Math_cos Math_sin None p cv = drawBackground p cv
      /\ fills (draw Math_cos Math_sin None p cv) = O
      /\ strokes (draw Math_cos Math_sin None p cv) = O)
  /\ (forall (img : HTMLImageElement) (p : Settings) (cv : Canvas),
         fills (draw Math_cos Math_sin (Some img) p cv)
         = Z.to_nat (particles p)
         /\ strokes (draw Math_cos Math_sin (Some img) p cv)
            = (if lightning p then 12 else 0)%nat).
Proof.
  split.
  - intros p cv. cbn [draw].
    destruct (drawBackground_reset p cv) as (_ & _ & F & S).
    repeat split; assumption.
  - intros img p cv. apply draw_with_image_effect.
Qed.

Lemma draw_cyanize (img : option HTMLImageElement) (p : Settings)
    (cv : Canvas) (v1 v2 : number) :
  clamp v1 (ofZ 0) (ofZ 1) = clamp v2 (ofZ 0) (ofZ 1) ->
  draw Math_cos Math_sin img (with_cyanize v1 p) cv
  = draw Math_cos Math_sin img (with_cyanize v2 p) cv.
Proof.
  intros Hc. destruct img as [im |]; [| reflexivity].
  rewrite !draw_with_image. cbv zeta.
  assert (T : forall c, drawTint (with_cyanize v1 p) c
                        = drawTint (with_cyanize v2 p) c).
  { intros c. unfold drawTint. cbn [cyanize with_cyanize size].
    now rewrite Hc. }
  change (drawBase im (with_cyanize v1 p)) with (drawBase im (with_cyanize v2 p)).
  change (drawBackground (with_cyanize v1 p))
    with (drawBackground (with_cyanize v2 p)).
  rewrite T. reflexivity.
Qed.

(** C6. A [cyanize] above 1 renders as [cyanize = 1]: the value reaches the
    surface only through [clamp(cyanize, 0, 1)], which lies in [0, 1]. *)
Theorem cyanize_clamped :
  (forall (img : option HTMLImageElement) (p : Settings) (cv : Canvas)
          (v : number),
      nlt (ofZ 1) v = true ->
      draw Math_cos Math_sin img (with_cyanize v p) cv
      = draw Math_cos Math_sin img (with_cyanize (ofZ 1) p) cv)
  /\ (forall (img : option HTMLImageElement) (p : Settings) (cv : Canvas)
             (v1 v2 : number),
         clamp v1 (ofZ 0) (ofZ 1) = clamp v2 (ofZ 0) (ofZ 1) ->
         draw Math_cos Math_sin img (with_cyanize v1 p) cv
         = draw Math_cos Math_sin img (with_cyanize v2 p) cv)
  /\ (forall v : number,
         v <> NaN ->
         exists q, clamp v (ofZ 0) (ofZ 1) = Fin q /\ (0 <= q <= 1)%Q)
  /\ clamp (lit (15 # 10)) (ofZ 0) (ofZ 1) = clamp (ofZ 1) (ofZ 0) (ofZ 1).
Proof.
  split; [| split; [| split]].
  - intros img p cv v Hv. apply draw_cyanize.
    rewrite (clamp_above v Hv). reflexivity.
  - intros img p cv v1 v2. apply draw_cyanize.
  - apply clamp_unit.
  - reflexivity.
Qed.

(** C7, as the code has it.  A step of a bolt makes four calls of the
    generator.  The first perturbs the branch's heading for the horizontal
    advance, the second perturbs it anew for the vertical advance: the
    cosine and the sine are taken at two separately perturbed headings, each
    within 0.25 rad of the branch's heading, and each scaled by
    [len / segments].  The third and the fourth call give the horizontal and
    the vertical jitter, each within half the branch's jitter magnitude. *)
Theorem lightning_step_two_headings :
  forall (W H intensity : number) (g0 : Stream) (x y : number) (g : Stream),
    let b := branch_setup W H intensity g0 in
    let st := step Math_cos Math_sin (angle b) (len b) (segments b) (jitter b)
                   x y g in
    exists (u1 u2 u3 u4 j e1 e2 k1 k2 : Q),
      draws 4 g = [Fin u1; Fin u2; Fin u3; Fin u4]
      /\ jitter b = Fin j
      /\ heading_x st = nadd (angle b) (Fin e1)
      /\ heading_y st = nadd (angle b) (Fin e2)
      /\ Fin e1 = perturbation (Fin u1)
      /\ Fin e2 = perturbation (Fin u2)
      /\ (- (1 # 4) <= e1 < 1 # 4)%Q
      /\ (- (1 # 4) <= e2 < 1 # 4)%Q
      /\ jitter_x st = Fin k1
      /\ jitter_y st = Fin k2
      /\ Fin k1 = jitter_offset (Fin u3) (Fin j)
      /\ Fin k2 = jitter_offset (Fin u4) (Fin j)
      /\ (- (j / 2) <= k1 <= j / 2)%Q
      /\ (- (j / 2) <= k2 <= j / 2)%Q
      /\ step_x st
         = nadd (nadd x (nmul (Math_cos (heading_x st))
                              (ndiv (len b) (segments b))))
                (jitter_x st)
      /\ step_y st
         = nadd (nadd y (nmul (Math_sin (heading_y st))
                              (ndiv (len b) (segments b))))
                (jitter_y st).
Proof.
  intros W H intensity g0 x y g b st.
  destruct (branch_jitter_range W H intensity g0) as (j & Hj & Rj).
  fold b in Hj.
  destruct (step_effect (angle b) (len b) (segments b) (jitter b) x y g)
    as (u1 & u2 & u3 & u4 & Hd & (R1 & R2 & R3 & R4)
        & Hx & Hy & Jx & Jy & Sx & Sy & _).
  fold st in Hx, Hy, Jx, Jy, Sx, Sy.
  destruct (perturbation_range u1 R1) as (e1 & P1 & Q1).
  destruct (perturbation_range u2 R2) as (e2 & P2 & Q2).
  assert (Hj0 : (0 <= j)%Q) by lra.
  destruct (jitter_offset_range u3 j R3 Hj0) as (k1 & K1 & L1).
  destruct (jitter_offset_range u4 j R4 Hj0) as (k2 & K2 & L2).
  exists u1, u2, u3, u4, j, e1, e2, k1, k2.
  rewrite Hj in Jx, Jy.
  rewrite P1 in Hx. rewrite P2 in Hy. rewrite K1 in Jx. rewrite K2 in Jy.
  repeat split; try assumption; try (symmetry; assumption); lra.
Qed.

(** ** Degenerate images *)

Lemma fitCover_zero (iw ih w : Z) :
  0 <= iw -> 0 <= ih -> iw = 0 \/ ih = 0 -> w <> 0 ->
  let f := fitCover (ofZ iw) (ofZ ih) (ofZ w) (ofZ w) in
  s f = ofZ 0 /\ dx f = ofZ 0 /\ dy f = ofZ 0 /\ d f = ofZ w.
Proof.
  intros Hiw Hih Hz Hw. unfold fitCover. cbv zeta.
  rewrite (ndiv_ofZ_same w Hw).
  destruct (Z.eq_dec ih 0) as [-> | Nh].
  - destruct (Z.eq_dec iw 0) as [-> | Nw].
    + change (ngt (ndiv (ofZ 0) (ofZ 0)) (ofZ 1)) with false.
      cbn iota. rewrite nmul_ofZ. repeat split.
    + assert (E : ndiv (ofZ iw) (ofZ 0) = PosInf).
      { unfold ndiv, ofZ. change (inject_Z 0 ?= 0)%Q with Eq.
        change 0%Q with (inject_Z 0). rewrite Qcompare_inject_Z.
        destruct (iw ?= 0) eqn:C; [| | reflexivity].
        - apply Z.compare_eq_iff in C. contradiction.
        - change (iw < 0) in C. lia. }
      rewrite E. change (ngt PosInf (ofZ 1)) with true.
      cbn iota. rewrite nmul_ofZ. repeat split.
  - assert (Hi : iw = 0) by (destruct Hz; [assumption | contradiction]).
    subst iw.
    assert (E : ndiv (ofZ 0) (ofZ ih) = ofZ 0).
    { unfold ndiv, ofZ. change 0%Q with (inject_Z 0) at 1.
      rewrite Qcompare_inject_Z.
      destruct (ih ?= 0) eqn:C.
      - apply Z.compare_eq_iff in C. contradiction.
      - change (ih < 0) in C. lia.
      - apply (Fin_Qred_Z _ 0). unfold Qdiv. ring. }
    rewrite E. change (ngt (ofZ 0) (ofZ 1)) with false.
    cbn iota. rewrite nmul_ofZ. repeat split.
Qed.

(** C8, as the code has it.  [draw] validates nothing and has no error
    path: for an image of zero width or height it still calls [fitCover]
    (the division by zero yields an infinity or NaN, not an exception),
    calls [drawImage] with the resulting crop of side 0 and the full square
    as destination, and goes on through every later stage. *)
Theorem zero_sized_image_is_rendered :
  forall (img : HTMLImageElement) (p : Settings) (cv : Canvas),
    0 <= width img -> 0 <= height img ->
    width img = 0 \/ height img = 0 ->
    size p <> 0 ->
    let f := fitCover (ofZ (width img)) (ofZ (height img))
                      (ofZ (size p)) (ofZ (size p)) in
    s f = ofZ 0
    /\ In (DrawImage img (sx f) (sy f) (ofZ 0) (ofZ 0)
             (ofZ 0) (ofZ 0) (ofZ (size p)) (ofZ (size p))
             (mkDrawState source_over
                [contrast_fn (contrast p); saturate_fn (saturation p)]
                (fillStyle (ctx (drawBackground p cv)))
                (Solid black) (ofZ 1)))
          (surface (draw Math_cos Math_sin (Some img) p cv))
    /\ fills (draw Math_cos Math_sin (Some img) p cv)
       = Z.to_nat (particles p)
    /\ strokes (draw Math_cos Math_sin (Some img) p cv)
       = (if lightning p then 12 else 0)%nat.
Proof.
  intros img p cv Hw Hh Hz Hs f.
  destruct (fitCover_zero (width img) (height img) (size p) Hw Hh Hz Hs)
    as (Fs & Fdx & Fdy & Fd).
  fold f in Fs, Fdx, Fdy, Fd.
  destruct (draw_with_image_effect img p cv) as (X & Fl & St).
  repeat split; try assumption.
  apply (extends_In _ _ _ X).
  rewrite drawBase_surface. fold f. rewrite Fs, Fdx, Fdy, Fd.
  apply in_or_app. right. left.
  f_equal. unfold drawBackground. destruct (background p); reflexivity.
Qed.

(** C9. Each of the six compositors, entered with the compositing operator
    at source-over and no filter, returns with both in that state; [draw]
    resets the context first, so every stage is entered in the neutral
    state and the pass ends in it. *)
Theorem stages_leave_state_neutral :
  (forall (img : HTMLImageElement) (p : Settings) (f : Canvas -> Canvas)
          (c : Canvas),
      In f (image_stages Math_cos Math_sin img p) ->
      neutral c -> neutral (f c))
  /\ (forall (img : HTMLImageElement) (p : Settings) (cv : Canvas) (k : nat),
         neutral (run_stages (firstn k (image_stages Math_cos Math_sin img p))
                             (drawBackground p cv)))
  /\ (forall (img : option HTMLImageElement) (p : Settings) (cv : Canvas),
         neutral (draw Math_cos Math_sin img p cv)).
Proof.
  split; [| split].
  - intros img p f c. apply stage_neutral.
  - intros img p cv k. apply run_stages_neutral.
    + intros f c Hf. apply (stage_neutral img p). exact (In_firstn _ _ _ Hf).
    + apply drawBackground_reset.
  - intros [img |] p cv; unfold draw.
    + apply run_stages_neutral.
      * intros f c. apply stage_neutral.
      * apply drawBackground_reset.
    + apply drawBackground_reset.
Qed.

End RenderProperties.

(** C10. The particle seed is [floor(intensity * 1e6) ^ W ^ H]; with
    [W = H], as [draw] calls it, the two exclusive-ors cancel and the seed is
    [floor(intensity * 1e6)] as a 32-bit integer, whatever the size: every
    output size makes the particle loop consume the same values, four for
    each particle. *)
Theorem particle_seed_ignores_size :
  (forall W intensity : number,
      particle_seed W W intensity
      = ofZ (ToInt32 (Math_floor (nmul intensity (ofZ 1000000)))))
  /\ (forall (W1 W2 intensity : number) (n : nat),
         draws n (seeded (particle_seed W1 W1 intensity))
         = draws n (seeded (particle_seed W2 W2 intensity)))
  /\ (forall (p : Settings) (z : Z),
         seeded (particle_seed (ofZ (size (with_size z p)))
                               (ofZ (size (with_size z p)))
                               (intensity (with_size z p)))
         = seeded (particle_seed (ofZ (size p)) (ofZ (size p)) (intensity p)))
  /\ (forall (W H : number) (c : Canvas) (g : Stream) (n : nat),
         snd (repeat_loop n (particle W H) (c, g)) = advance (4 * n) g).
Proof.
  repeat split.
  - apply particle_seed_square.
  - intros W1 W2 intensity n. now rewrite !particle_seed_square.
  - intros p z. now rewrite !particle_seed_square.
  - intros W H c g n. apply (particles_effect W H n c g).
Qed.

(** ** The theorems at concrete inputs *)

Lemma cyanize_clamped_witness :
  draw poly_cos poly_sin (Some sample_image)
       (with_cyanize (lit (15 # 10)) defaults) fresh_canvas
  = draw poly_cos poly_sin (Some sample_image)
         (with_cyanize (ofZ 1) defaults) fresh_canvas.
Proof.
  apply (proj1 (cyanize_clamped poly_cos poly_sin)
               (Some sample_image) defaults fresh_canvas (lit (15 # 10))).
  reflexivity.
Defined.

Lemma zero_sized_image_is_rendered_witness :
  s (fitCover (ofZ 400) (ofZ 0) (ofZ 1024) (ofZ 1024)) = ofZ 0
  /\ In (DrawImage (mkImage 400 0 []) (ofZ 200) (ofZ 0) (ofZ 0) (ofZ 0)
           (ofZ 0) (ofZ 0) (ofZ 1024) (ofZ 1024)
           (mkDrawState source_over
              [contrast_fn (lit (11 # 10)); saturate_fn (lit (125 # 100))]
              (fillStyle (ctx (drawBackground defaults fresh_canvas)))
              (Solid black) (ofZ 1)))
        (surface (draw poly_cos poly_sin (Some (mkImage 400 0 [])) defaults
                       fresh_canvas))
  /\ fills (draw poly_cos poly_sin (Some (mkImage 400 0 [])) defaults
                 fresh_canvas) = 150%nat
  /\ strokes (draw poly_cos poly_sin (Some (mkImage 400 0 [])) defaults
                   fresh_canvas) = 12%nat.
Proof.
  apply (zero_sized_image_is_rendered poly_cos poly_sin
           (mkImage 400 0 []) defaults fresh_canvas).
  - cbn. lia.
  - cbn. lia.
  - right. reflexivity.
  - cbn. lia.
Defined.

Lemma stages_leave_state_neutral_witness :
  neutral (drawTint defaults fresh_canvas).
Proof.
  apply (proj1 (stages_leave_state_neutral poly_cos poly_sin)
               sample_image defaults (drawTint defaults) fresh_canvas).
  - right. left. reflexivity.
  - split; reflexivity.
Defined.

(** ** Where the specification's wording fails *)

(** C1 as worded fails: with the default settings (150 particles, lightning
    on) and no image, no disc and no bolt is painted. *)
Lemma no_image_no_particles :
  ~ (0 < particles defaults ->
     lightning defaults = true ->
     (0 < fills (draw poly_cos poly_sin None defaults fresh_canvas))%nat
     /\ (0 < strokes (draw poly_cos poly_sin None defaults fresh_canvas))%nat).
Proof.
  intros H. destruct H as [Hf _]; [reflexivity | reflexivity |].
  vm_compute in Hf. inversion Hf.
Qed.

(** C7 as worded fails: in the first step of the first bolt at intensity 0
    on a 512 canvas, the heading handed to [Math.cos] and the one handed to
    [Math.sin] come from two different calls of the generator (the seventh
    and the eighth of the stream seeded with 12345) and differ. *)
Lemma lightning_step_headings_differ :
  let b := branch_setup (ofZ 512) (ofZ 512) (ofZ 0)
                        (seeded (lightning_seed (ofZ 0))) in
  let st := step poly_cos poly_sin (angle b) (len b) (segments b) (jitter b)
                 (x0 b) (y0 b) (branch_rnd b) in
  lightning_seed (ofZ 0) = ofZ 12345
  /\ skipn 6 (draws 8 (seeded (ofZ 12345)))
     = [Fin (7949781 # 8388608); Fin (6330113 # 16777216)]
  /\ heading_x st = nadd (angle b) (perturbation (Fin (7949781 # 8388608)))
  /\ heading_y st = nadd (angle b) (perturbation (Fin (6330113 # 16777216)))
  /\ heading_x st <> heading_y st.
Proof.
  cbv zeta. split; [| split; [| split; [| split]]].
  - vm_compute. reflexivity.
  - vm_compute. reflexivity.
  - vm_compute. reflexivity.
  - vm_compute. reflexivity.
  - intros H. vm_compute in H. discriminate H.
Qed.

(** C8 as worded fails: an image of 400 by 0 is not refused.  [fitCover]
    runs on it, [drawImage] is called with its crop (the third painting
    call, after the two of the background), and the pass goes on to paint
    the 150 discs and the 12 strokes of a default render. *)
Lemma zero_height_image_is_drawn :
  let img := mkImage 400 0 [] in
  let c := draw poly_cos poly_sin (Some img) defaults fresh_canvas in
  fitCover (ofZ 400) (ofZ 0) (ofZ 1024) (ofZ 1024)
  = mkFit (ofZ 200) (ofZ 0) (ofZ 0) (ofZ 0) (ofZ 0) (ofZ 1024)
  /\ nth_error (surface c) 2
     = Some (DrawImage img (ofZ 200) (ofZ 0) (ofZ 0) (ofZ 0)
               (ofZ 0) (ofZ 0) (ofZ 1024) (ofZ 1024)
               (ctx (set_filter [contrast_fn (lit (11 # 10));
                                 saturate_fn (lit (125 # 100))]
                                (drawBackground defaults fresh_canvas))))
  /\ fills c = 150%nat
  /\ strokes c = 12%nat.
Proof.
  cbv zeta. split; [reflexivity |].
  destruct (draw_with_image_effect poly_cos poly_sin (mkImage 400 0 [])
              defaults fresh_canvas) as ([l El] & Fl & St).
  split; [| split; [exact Fl | exact St]].
  rewrite El, nth_error_app1 by (cbn; lia).
  reflexivity.
Qed.

(** * Further properties of the pass *)

(** ** The generator's state *)

Lemma lcg_next_injective (x y : Z) :
  0 <= x < 2 ^ 32 -> 0 <= y < 2 ^ 32 -> lcg_next x = lcg_next y -> x = y.
Proof.
  intros Hx Hy E.
  assert (R : forall z, 0 <= z < 2 ^ 32 ->
                (4276115653 * (lcg_next z - 1013904223)) mod 2 ^ 32 = z).
  { intros z Hz. unfold lcg_next.
    rewrite <- Zmult_mod_idemp_r, Zminus_mod_idemp_l, Zmult_mod_idemp_r.
    replace (4276115653 * (1664525 * z + 1013904223 - 1013904223))
      with (z + (1657219 * z) * 2 ^ 32) by lia.
    rewrite Z.mod_add by lia. apply Z.mod_small. exact Hz. }
  rewrite <- (R x Hx), <- (R y Hy), E. reflexivity.
Qed.


Lemma advance_lcg (n : nat) (z : Z) :
  advance n (mkStream (ofZ z)) = mkStream (ofZ (Nat.iter n lcg_next z)).
Proof.
  revert z. induction n as [| n IH]; intros z; [reflexivity |].
  cbn [advance]. rewrite rnd_lcg. cbn [snd]. rewrite IH.
  now rewrite Nat.iter_succ_r.
Qed.

Lemma iter_lcg_range (n : nat) (z : Z) :
  0 <= z < 2 ^ 32 -> 0 <= Nat.iter n lcg_next z < 2 ^ 32.
Proof.
  intros Hz. destruct n as [| n]; [exact Hz |].
  cbn [Nat.iter]. apply lcg_next_range.
Qed.

(** X1. However often a stream is called, its state is an integer of
    [0, 2^32), so the product and sum of the next update stay below 2^53,
    where the arithmetic of doubles is exact, and the stream goes on
    following the congruential recurrence. *)
Theorem stream_state_stays_32_bit :
  forall (seed : number) (n : nat),
    exists z : Z,
      advance n (seeded seed) = mkStream (ofZ z)
      /\ z = Nat.iter n lcg_next (seed_state seed)
      /\ 0 <= z < 2 ^ 32
      /\ 0 <= 1664525 * z + 1013904223 < 2 ^ 53.
Proof.
  intros seed n. rewrite seeded_state, advance_lcg.
  pose proof (seed_state_range seed) as Hs.
  assert (R : 0 <= Nat.iter n lcg_next (seed_state seed) < 2 ^ 32)
    by (apply iter_lcg_range; lia).
  eexists. repeat split; try apply R; lia.
Qed.

(** X2. The state update loses nothing: two streams that are in the same
    state after the same number of calls were seeded to the same state.
    Streams started apart never meet. *)
Theorem streams_never_merge :
  forall (seed1 seed2 : number) (n : nat),
    advance n (seeded seed1) = advance n (seeded seed2) ->
    seeded seed1 = seeded seed2.
Proof.
  intros seed1 seed2 n. rewrite !seeded_state.
  pose proof (seed_state_range seed1) as H1.
  pose proof (seed_state_range seed2) as H2.
  assert (R1 : 0 <= seed_state seed1 < 2 ^ 32) by lia.
  assert (R2 : 0 <= seed_state seed2 < 2 ^ 32) by lia.
  clear H1 H2. revert R1 R2.
  generalize (seed_state seed1) (seed_state seed2). intros x y.
  revert x y. induction n as [| n IH]; intros x y Hx Hy E.
  - exact E.
  - cbn [advance] in E. rewrite !rnd_lcg in E. cbn [snd] in E.
    apply IH in E; try apply lcg_next_range.
    inversion E as [E'].
    apply lcg_next_injective in E'; try assumption. now subst.
Qed.

Lemma streams_never_merge_witness :
  seeded (ofZ 5) = seeded (ofZ 4294967301).
Proof.
  apply (streams_never_merge (ofZ 5) (ofZ 4294967301) 3%nat).
  reflexivity.
Defined.

(** ** [clamp] with any bounds *)

Lemma Math_min_Fin (b v : Q) :
  exists m, Math_min (Fin b) (Fin v) = Fin m
            /\ ((v < b)%Q -> m = v) /\ ((b <= v)%Q -> m = b).
Proof.
  unfold Math_min, nlt, neq.
  destruct (Qcompare_spec b v) as [E | L | G].
  - rewrite (proj1 (Qeq_alt v b)) by (symmetry; exact E).
    rewrite (proj2 (Qeq_bool_iff b v) E).
    exists b. split; [reflexivity | split; intros C; [lra | reflexivity]].
  - exists b. split; [reflexivity | split; intros C; [lra | reflexivity]].
  - rewrite (proj1 (Qlt_alt v b) G).
    exists v. split; [reflexivity | split; intros C; [reflexivity | lra]].
Qed.

Lemma Math_max_Fin (a m : Q) :
  exists r, Math_max (Fin a) (Fin m) = Fin r
            /\ ((m <= a)%Q -> r = a) /\ ((a < m)%Q -> r = m).
Proof.
  unfold Math_max, nlt, neq.
  destruct (Qcompare_spec m a) as [E | L | G].
  - rewrite (proj1 (Qeq_alt a m)) by (symmetry; exact E).
    rewrite (proj2 (Qeq_bool_iff a m)) by (symmetry; exact E).
    exists a. split; [reflexivity | split; intros C; [reflexivity | lra]].
  - exists a. split; [reflexivity | split; intros C; [reflexivity | lra]].
  - rewrite (proj1 (Qlt_alt a m) G).
    exists m. split; [reflexivity | split; intros C; [lra | reflexivity]].
Qed.

Lemma clamp_Fin (a b v : Q) :
  exists r, clamp (Fin v) (Fin a) (Fin b) = Fin r
            /\ ((v <= a)%Q -> (a <= b)%Q -> r = a)
            /\ ((a < v < b)%Q -> r = v)
            /\ ((b <= v)%Q -> (a < b)%Q -> r = b)
            /\ ((b <= v)%Q -> (b <= a)%Q -> r = a).
Proof.
  unfold clamp.
  destruct (Math_min_Fin b v) as (m & -> & M1 & M2).
  destruct (Math_max_Fin a m) as (r & -> & R1 & R2).
  exists r. split; [reflexivity |].
  destruct (Qlt_le_dec v b) as [Hvb | Hbv].
  - rewrite (M1 Hvb) in *. clear M1 M2.
    destruct (Qlt_le_dec a v) as [Hav | Hva].
    + rewrite (R2 Hav). repeat split; intros; try reflexivity; lra.
    + rewrite (R1 Hva). repeat split; intros; try reflexivity; lra.
  - rewrite (M2 Hbv) in *. clear M1 M2.
    destruct (Qlt_le_dec a b) as [Hab | Hba].
    + rewrite (R2 Hab). repeat split; intros; try reflexivity; lra.
    + rewrite (R1 Hba). repeat split; intros; try reflexivity; lra.
Qed.

(** X3. With finite bounds [a <= b], [clamp] returns one of [a], [b] and
    [v]: [v] itself when it lies strictly between the bounds, the bound it
    passes otherwise; the result is within the bounds and clamping it again
    changes nothing.  NaN is not clamped: it comes back as NaN. *)
Theorem clamp_between_bounds :
  forall a b v : Q,
    (a <= b)%Q ->
    exists r : Q,
      clamp (Fin v) (Fin a) (Fin b) = Fin r
      /\ (r = a \/ r = b \/ r = v)
      /\ (a <= r <= b)%Q
      /\ ((v <= a)%Q -> r = a)
      /\ ((a < v < b)%Q -> r = v)
      /\ ((b <= v)%Q -> r == b)
      /\ clamp (Fin r) (Fin a) (Fin b) = Fin r
      /\ clamp NaN (Fin a) (Fin b) = NaN.
Proof.
  intros a b v Hab.
  destruct (clamp_Fin a b v) as (r & E & C1 & C2 & C3 & C4).
  exists r. split; [exact E |].
  assert (Cases : ((v <= a /\ r = a) \/ (a < v < b /\ r = v)
                   \/ (b <= v /\ a < b /\ r = b)
                   \/ (b <= v /\ b <= a /\ r = a))%Q).
  { destruct (Qlt_le_dec a v) as [Hav | Hva].
    - destruct (Qlt_le_dec v b) as [Hvb | Hbv].
      + right. left. split; [lra | apply C2; lra].
      + destruct (Qlt_le_dec a b) as [Hlt | Hle].
        * right. right. left. repeat split; try lra. now apply C3.
        * right. right. right. repeat split; try lra. now apply C4.
    - left. split; [lra | now apply C1]. }
  destruct (clamp_Fin a b r) as (r' & E' & D1 & D2 & D3 & D4).
  rewrite E'.
  destruct Cases as [(H1 & ->) | [(H1 & ->) | [(H1 & H2 & ->) | (H1 & H2 & ->)]]].
  - rewrite (D1 ltac:(lra) Hab).
    repeat split; auto; intros; try reflexivity; lra.
  - rewrite (D2 H1).
    repeat split; auto; intros; try reflexivity; lra.
  - rewrite (D3 ltac:(lra) H2).
    repeat split; auto; intros; try reflexivity; lra.
  - rewrite (D1 ltac:(lra) Hab).
    repeat split; auto; intros; try reflexivity; lra.
Qed.

Lemma clamp_between_bounds_witness :
  exists r : Q,
    clamp (Fin (3 # 2)) (Fin 0) (Fin 1) = Fin r
    /\ (r = 0 \/ r = 1 \/ r = 3 # 2)%Q
    /\ (0 <= r <= 1)%Q
    /\ ((3 # 2 <= 0)%Q -> r = 0%Q)
    /\ ((0 < 3 # 2 < 1)%Q -> r = (3 # 2)%Q)
    /\ ((1 <= 3 # 2)%Q -> r == 1)
    /\ clamp (Fin r) (Fin 0) (Fin 1) = Fin r
    /\ clamp NaN (Fin 0) (Fin 1) = NaN.
Proof. apply (clamp_between_bounds 0 1 (3 # 2)). lra. Defined.

(** ** [fitCover] onto a square *)

Lemma ndiv_ofZ_pos (a : Z) (b : positive) :
  ndiv (ofZ a) (ofZ (Z.pos b)) = Fin (Qred (a # b)).
Proof.
  unfold ndiv, ofZ. change 0%Q with (inject_Z 0).
  rewrite Qcompare_inject_Z. cbn [Z.compare].
  apply Fin_Qred. symmetry. apply Qmake_Qdiv.
Qed.

Lemma Math_floor_half (a : Z) :
  Math_floor (ndiv (ofZ a) (ofZ 2)) = ofZ (a / 2).
Proof.
  rewrite (ndiv_ofZ_pos a 2). unfold Math_floor. f_equal.
  rewrite (Qfloor_comp _ _ (Qred_correct (a # 2))). reflexivity.
Qed.

Lemma ngt_ratio (iw : Z) (ih : positive) :
  ngt (ndiv (ofZ iw) (ofZ (Z.pos ih))) (ofZ 1) = (Z.pos ih <? iw).
Proof.
  rewrite ndiv_ofZ_pos. unfold ngt, nlt, ofZ.
  change (inject_Z 1) with (Qred 1). rewrite <- Qred_compare.
  unfold Qcompare. cbn [Qnum Qden]. rewrite Z.mul_1_r, Z.mul_1_l.
  unfold Z.ltb. reflexivity.
Qed.

(** X4. For an image of positive width and height and a square destination
    of non-zero side, the crop is the largest square that fits the image,
    centred along the longer side (the offset rounded down): it starts at
    a non-negative offset and ends within the image. *)
Theorem fitCover_largest_centred_square :
  forall iw ih w : Z,
    0 < iw -> 0 < ih -> w <> 0 ->
    exists cx cy side : Z,
      fitCover (ofZ iw) (ofZ ih) (ofZ w) (ofZ w)
      = mkFit (ofZ cx) (ofZ cy) (ofZ side) (ofZ 0) (ofZ 0) (ofZ w)
      /\ side = Z.min iw ih
      /\ cx = (iw - side) / 2
      /\ cy = (ih - side) / 2
      /\ 0 <= cx /\ cx + side <= iw
      /\ 0 <= cy /\ cy + side <= ih
      /\ (cx = 0 \/ cy = 0).
Proof.
  intros iw ih w Hiw Hih Hw.
  destruct ih as [| ih | ih]; try lia.
  unfold fitCover. rewrite (ndiv_ofZ_same w Hw), ngt_ratio.
  rewrite !nmul_ofZ, !Z.mul_1_r, !Math_floor_ofZ, !nsub_ofZ, !Math_floor_half.
  destruct (Z.ltb_spec (Z.pos ih) iw) as [L | G].
  - exists ((iw - Z.pos ih) / 2), 0, (Z.pos ih).
    rewrite Z.min_r by lia.
    assert (D : 0 <= (iw - Z.pos ih) / 2 <= iw - Z.pos ih).
    { split; [apply Z.div_pos; lia |].
      apply Z.div_le_upper_bound; lia. }
    rewrite Z.sub_diag. repeat split; try reflexivity; try lia.
  - exists 0, ((Z.pos ih - iw) / 2), iw.
    rewrite Z.min_l by lia.
    assert (D : 0 <= (Z.pos ih - iw) / 2 <= Z.pos ih - iw).
    { split; [apply Z.div_pos; lia |].
      apply Z.div_le_upper_bound; lia. }
    rewrite Z.sub_diag. repeat split; try reflexivity; try lia.
Qed.

Lemma fitCover_largest_centred_square_witness :
  exists cx cy side : Z,
    fitCover (ofZ 1920) (ofZ 1081) (ofZ 1024) (ofZ 1024)
    = mkFit (ofZ cx) (ofZ cy) (ofZ side) (ofZ 0) (ofZ 0) (ofZ 1024)
    /\ side = Z.min 1920 1081
    /\ cx = (1920 - side) / 2
    /\ cy = (1081 - side) / 2
    /\ 0 <= cx /\ cx + side <= 1920
    /\ 0 <= cy /\ cy + side <= 1081
    /\ (cx = 0 \/ cy = 0).
Proof. apply (fitCover_largest_centred_square 1920 1081 1024); lia. Defined.

(** ** [path] *)

Lemma path_from_cur_path (l : list (number * number)) :
  forall (i : nat) (c : Canvas),
    cur_path (path_from i l c)
    = cur_path c
      ++ match i with
         | O => polyline l
         | S _ => map (fun q => LineTo (fst q) (snd q)) l
         end
    /\ cv_width (path_from i l c) = cv_width c
    /\ cv_height (path_from i l c) = cv_height c.
Proof.
  induction l as [| [x y] rest IH]; intros i c; cbn [path_from].
  - destruct i; cbn; now rewrite app_nil_r.
  - destruct (IH (S i) (match i with
                        | O => moveTo x y c
                        | S _ => lineTo x y c
                        end)) as (H1 & H2 & H3).
    rewrite H1, H2, H3.
    destruct i; canvas_unfold; cbn [polyline map fst snd];
      rewrite <- app_assoc; repeat split.
Qed.

(** What [path] leaves on the canvas. *)
Lemma path_polyline_frame :
  forall (c : Canvas) (l : list (number * number)),
    cur_path (path c l) = polyline l
    /\ length (cur_path (path c l)) = length l
    /\ ctx (path c l) = ctx c
    /\ saved (path c l) = saved c
    /\ surface (path c l) = surface c
    /\ cv_width (path c l) = cv_width c
    /\ cv_height (path c l) = cv_height c.
Proof.
  intros c l.
  destruct (path_frame c l) as (F1 & F2 & F3).
  unfold path in *.
  destruct (path_from_cur_path l 0 (beginPath c)) as (P1 & P2 & P3).
  rewrite P1, P2, P3, F1, F2, F3. cbn [beginPath with_path cur_path app].
  repeat split.
  destruct l as [| [x y] rest]; cbn [polyline length]; [reflexivity |].
  now rewrite length_map.
Qed.

(** X5. [path] throws away whatever path the context held and leaves the
    open polygon through the points: a move to the first, a line to each of
    the others.  It paints nothing and changes neither the drawing state nor
    the saved states nor the size of the canvas. *)
Theorem path_is_polyline :
  forall (c : Canvas) (l : list (number * number)),
    cur_path (path c l) = polyline l
    /\ length (cur_path (path c l)) = length l
    /\ ctx (path c l) = ctx c
    /\ saved (path c l) = saved c
    /\ surface (path c l) = surface c
    /\ cv_width (path c l) = cv_width c
    /\ cv_height (path c l) = cv_height c.
Proof. exact path_polyline_frame. Qed.

(** ** The bolts of the lightning layer *)

Lemma branch_rnd_advance (W H intensity : number) (g : Stream) :
  branch_rnd (branch_setup W H intensity g) = advance 6 g.
Proof.
  unfold branch_setup. cbn [advance].
  repeat (next_rnd; cbn [fst snd]). reflexivity.
Qed.

Lemma branch_origin (W H intensity : number) (g : Stream) :
  x0 (branch_setup W H intensity g)
  = nadd (nmul (nmul (fst (rnd g)) W) (lit (8 # 10))) (nmul W (lit (1 # 10)))
  /\ y0 (branch_setup W H intensity g)
     = nadd (nmul (nmul (fst (rnd (snd (rnd g)))) H) (lit (8 # 10)))
            (nmul H (lit (1 # 10))).
Proof.
  unfold branch_setup.
  repeat (next_rnd; cbn [fst snd]). split; reflexivity.
Qed.

(** The two strokes of a bolt, for any list of points. *)
Lemma two_strokes (c : Canvas) (l : list (number * number))
    (intensity : number) :
  let c1 :=
    set_filter [blur_fn (nadd (ofZ 8) (nmul (ofZ 10) intensity))]
      (set_lineWidth (ofZ 6)
         (set_strokeStyle (Solid (rgba 120 220 255 (lit (55 # 100)))) c)) in
  let c2 := stroke (path c1 l) in
  let c3 :=
    set_lineWidth (ofZ 2)
      (set_strokeStyle (Solid (rgba 200 255 255 (lit (9 # 10))))
         (set_filter filter_none c2)) in
  let c4 := stroke (path c3 l) in
  surface c4
  = surface c ++ [StrokePath (polyline l) (glow_stroke intensity (ctx c));
                  StrokePath (polyline l) (core_stroke (ctx c))]
  /\ ctx c4 = core_stroke (ctx c)
  /\ saved c4 = saved c
  /\ cv_width c4 = cv_width c
  /\ cv_height c4 = cv_height c.
Proof.
  intros c1 c2 c3 c4.
  destruct (path_polyline_frame c3 l) as (B1 & _ & B2 & B3 & B4 & B5 & B6).
  destruct (path_polyline_frame c1 l) as (A1 & _ & A2 & A3 & A4 & A5 & A6).
  unfold c4, stroke, paint.
  cbn [surface ctx saved cv_width cv_height].
  rewrite B1, B2, B3, B4, B5, B6.
  unfold c3, c2, stroke, paint. canvas_unfold.
  rewrite A1, A2, A3, A4, A5, A6.
  unfold c1. canvas_unfold.
  rewrite <- app_assoc. repeat split.
Qed.

Section FurtherRenderProperties.

Variable Math_cos Math_sin : number -> number.

Lemma walk_effect (angle len segments jitter : number) (n : nat) (w : Walk) :
  let r := repeat_loop n (segment Math_cos Math_sin angle len segments jitter)
                       w in
  length (pts r) = (length (pts w) + n)%nat
  /\ (exists l, pts r = pts w ++ l)
  /\ walk_rnd r = advance (4 * n) (walk_rnd w).
Proof.
  induction n as [| n IH].
  - cbn. rewrite Nat.add_0_r. repeat split. exists []. now rewrite app_nil_r.
  - rewrite repeat_loop_succ. cbv zeta in IH |- *.
    destruct IH as (I1 & (l & I2) & I3).
    set (r := repeat_loop n _ w) in *.
    unfold segment. cbn [pts walk_rnd].
    destruct (step_effect Math_cos Math_sin angle len segments jitter
                (walk_x r) (walk_y r) (walk_rnd r))
      as (_ & _ & _ & _ & _ & _ & _ & _ & _ & _ & _ & _ & R).
    cbv zeta in R. rewrite R, length_app, I1, I2, I3. cbn [length].
    repeat split.
    + lia.
    + eexists. rewrite <- app_assoc. reflexivity.
    + replace (4 * S n)%nat with (4 * n + 4)%nat by lia.
      now rewrite advance_add.
Qed.

(** What one bolt paints and consumes. *)
Lemma bolt_exact :
  forall (W H intensity : number) (c : Canvas) (g : Stream),
    let b := branch_setup W H intensity g in
    let w := branch_walk Math_cos Math_sin b in
    let r := bolt Math_cos Math_sin W H intensity (c, g) in
    surface (fst r)
    = surface c
      ++ [StrokePath (polyline (pts w)) (glow_stroke intensity (ctx c));
          StrokePath (polyline (pts w)) (core_stroke (ctx c))]
    /\ (16 <= length (pts w) <= 33)%nat
    /\ hd_error (pts w) = Some (x0 b, y0 b)
    /\ ofZ (Z.of_nat (length (pts w)) - 1) = segments b
    /\ snd r = advance (6 + 4 * (length (pts w) - 1)) g
    /\ ctx (fst r) = core_stroke (ctx c)
    /\ saved (fst r) = saved c.
Proof.
  intros W H intensity c g. cbv zeta.
  unfold bolt, branch_walk. cbv beta iota zeta.
  destruct (branch_segments_range W H intensity g) as (k & Hk & Rk & Tk).
  pose proof (branch_rnd_advance W H intensity g) as Hg.
  set (b := branch_setup W H intensity g) in *.
  pose proof (walk_effect (angle b) (len b) (segments b) (jitter b)
                (turns_upto (segments b))
                (mkWalk (x0 b) (y0 b) [(x0 b, y0 b)] (branch_rnd b)))
    as (L & (l & P) & G).
  cbv zeta in L, P, G. cbn [pts walk_rnd length] in L, P, G.
  set (w := repeat_loop _ _ _) in *.
  rewrite Tk in L, G. rewrite Hg in G.
  clearbody w b.
  assert (Hlen : length (pts w) = S (Z.to_nat k)) by lia.
  destruct (two_strokes c (pts w) intensity) as (S1 & S2 & S3 & _ & _).
  cbv zeta in S1, S2, S3. cbn [fst snd].
  rewrite S1, S2, S3, G, Hlen, Hk, <- advance_add, P.
  repeat split; try lia.
  - f_equal. lia.
  - f_equal. lia.
Qed.

(** X6. A bolt is a polygon of 16 to 33 points that starts at the branch's
    origin.  It is stroked twice along that same polygon: a wide pass (6
    px) under a blur of [8 + 10 * intensity] px, then a thin pass (2 px)
    with no filter, both under the compositing operator the bolt was
    entered with.  A bolt consumes six values of the generator and four
    more for every segment. *)
Theorem bolt_is_one_polygon_stroked_twice :
  forall (W H intensity : number) (c : Canvas) (g : Stream),
    let b := branch_setup W H intensity g in
    let w := branch_walk Math_cos Math_sin b in
    let r := bolt Math_cos Math_sin W H intensity (c, g) in
    surface (fst r)
    = surface c
      ++ [StrokePath (polyline (pts w)) (glow_stroke intensity (ctx c));
          StrokePath (polyline (pts w)) (core_stroke (ctx c))]
    /\ (16 <= length (pts w) <= 33)%nat
    /\ hd_error (pts w) = Some (x0 b, y0 b)
    /\ ofZ (Z.of_nat (length (pts w)) - 1) = segments b
    /\ snd r = advance (6 + 4 * (length (pts w) - 1)) g
    /\ ctx (fst r) = core_stroke (ctx c)
    /\ saved (fst r) = saved c.
Proof. exact bolt_exact. Qed.

End FurtherRenderProperties.

(** ** The sparkles of the particle layer *)

Lemma repeat_loop_add {A : Type} (f : A -> A) (n m : nat) (a : A) :
  repeat_loop (n + m) f a = repeat_loop m f (repeat_loop n f a).
Proof.
  revert a. induction n as [| n IH]; intros a; [reflexivity |].
  cbn [Nat.add repeat_loop]. apply IH.
Qed.

Lemma scaled_unit (q w : Q) :
  (0 <= q < 1)%Q -> (0 < w)%Q -> (0 <= Qred (q * w) < w)%Q.
Proof.
  intros Hq Hw. rewrite Qred_correct. split.
  - apply Qmult_le_0_compat; lra.
  - setoid_replace w with (1 * w)%Q at 2 by ring.
    apply Qmult_lt_compat_r; lra.
Qed.

Lemma sparkle_pen (w h : Q) (st st' : DrawState) (p : Paint) :
  globalCompositeOperation st' = globalCompositeOperation st ->
  filter st' = filter st ->
  strokeStyle st' = strokeStyle st ->
  lineWidth st' = lineWidth st ->
  sparkle w h st' p -> sparkle w h st p.
Proof.
  intros H1 H2 H3 H4 (x & y & r & a & E & R).
  exists x, y, r, a. rewrite <- H1, <- H2, <- H3, <- H4. now split.
Qed.

Lemma particle_sparkle (w h : Q) (c : Canvas) (g : Stream) :
  (0 < w)%Q -> (0 < h)%Q ->
  let r := particle (Fin w) (Fin h) (c, g) in
  (exists p, surface (fst r) = surface c ++ [p] /\ sparkle w h (ctx c) p)
  /\ globalCompositeOperation (ctx (fst r)) = globalCompositeOperation (ctx c)
  /\ filter (ctx (fst r)) = filter (ctx c)
  /\ strokeStyle (ctx (fst r)) = strokeStyle (ctx c)
  /\ lineWidth (ctx (fst r)) = lineWidth (ctx c)
  /\ saved (fst r) = saved c
  /\ cv_width (fst r) = cv_width c
  /\ cv_height (fst r) = cv_height c.
Proof.
  intros Hw Hh. unfold particle. cbv zeta.
  unit_rnd g q1 R1.
  match goal with |- context [rnd ?g] => unit_rnd g q2 R2 end.
  match goal with |- context [rnd ?g] => unit_rnd g q3 R3 end.
  match goal with |- context [rnd ?g] => unit_rnd g q4 R4 end.
  canvas_unfold. cbn [addColorStop app].
  split; [| repeat split].
  eexists. split; [reflexivity |].
  unfold sparkle, nmul at 1 2 3 5 6 7, nadd, lit, ofZ at 1 3 5.
  do 4 eexists. split; [reflexivity |].
  change (Qred (5 # 10)) with (1 # 2).
  change (Qred (22 # 10)) with (11 # 5).
  change (Qred (35 # 100)) with (7 # 20).
  change (Qred (45 # 100)) with (9 # 20).
  change (inject_Z 4) with 4%Q.
  pose proof (scaled_unit q1 w R1 Hw).
  pose proof (scaled_unit q2 h R2 Hh).
  repeat split; try tauto;
    rewrite ?Qred_correct; try lra.
Qed.

Lemma particles_sparkles (w h : Q) (n : nat) (c : Canvas) (g : Stream) :
  (0 < w)%Q -> (0 < h)%Q ->
  let r := repeat_loop n (particle (Fin w) (Fin h)) (c, g) in
  (exists l, surface (fst r) = surface c ++ l
             /\ length l = n
             /\ Forall (sparkle w h (ctx c)) l)
  /\ globalCompositeOperation (ctx (fst r)) = globalCompositeOperation (ctx c)
  /\ filter (ctx (fst r)) = filter (ctx c)
  /\ strokeStyle (ctx (fst r)) = strokeStyle (ctx c)
  /\ lineWidth (ctx (fst r)) = lineWidth (ctx c)
  /\ saved (fst r) = saved c
  /\ cv_width (fst r) = cv_width c
  /\ cv_height (fst r) = cv_height c.
Proof.
  intros Hw Hh. induction n as [| n IH].
  - cbn. repeat split. exists []. rewrite app_nil_r. repeat split. constructor.
  - rewrite repeat_loop_succ. cbv zeta in IH |- *.
    destruct (repeat_loop n _ (c, g)) as [c1 g1]. cbn [fst snd] in IH.
    destruct IH as ((l & I1 & I2 & I3) & J1 & J2 & J3 & J4 & J5 & J6 & J7).
    destruct (particle_sparkle w h c1 g1 Hw Hh)
      as ((p & P1 & P2) & K1 & K2 & K3 & K4 & K5 & K6 & K7).
    cbv zeta in P1, K1, K2, K3, K4, K5, K6, K7.
    rewrite K1, K2, K3, K4, K5, K6, K7.
    split; [| repeat split; assumption].
    exists (l ++ [p]). rewrite P1, I1, <- app_assoc, length_app, I2.
    cbn [length]. repeat split; [lia |].
    apply Forall_app. split; [exact I3 |].
    constructor; [| constructor].
    now apply (sparkle_pen w h (ctx c) (ctx c1)).
Qed.

(** X7. On a surface of positive width and height [drawParticles] adds
    exactly [count] painting calls (none for a negative count), each a
    sparkle: a full circle centred on the surface, of radius between 2 and
    10.8, filled with a radial gradient that fades from white at an opacity
    between 0.35 and 0.8 to transparent, and composited with screen.  The
    drawing state and the size of the canvas come back unchanged. *)
Theorem drawParticles_paints_sparkles :
  forall (c : Canvas) (w h : Q) (count : Z) (intensity : number),
    (0 < w)%Q -> (0 < h)%Q ->
    let c' := drawParticles c (Fin w) (Fin h) count intensity in
    (exists l,
        surface c' = surface c ++ l
        /\ length l = Z.to_nat count
        /\ Forall (sparkle w h
                     (mkDrawState screen (filter (ctx c)) (fillStyle (ctx c))
                                  (strokeStyle (ctx c)) (lineWidth (ctx c))))
                  l)
    /\ ctx c' = ctx c
    /\ saved c' = saved c
    /\ cv_width c' = cv_width c
    /\ cv_height c' = cv_height c.
Proof.
  intros c w h count intensity Hw Hh. cbv zeta. unfold drawParticles.
  pose proof (particles_sparkles w h (Z.to_nat count)
                (set_globalCompositeOperation screen (save c))
                (seeded (particle_seed (Fin w) (Fin h) intensity)) Hw Hh) as E.
  cbv zeta in E.
  destruct (repeat_loop _ _ _) as [c1 g1]. cbn [fst snd] in E.
  destruct E as ((l & E1 & E2 & E3) & _ & _ & _ & _ & E5 & E6 & E7).
  unfold restore. rewrite E5.
  cbn [saved set_globalCompositeOperation with_ctx save ctx cv_width
       cv_height cur_path surface] in *.
  split; [| repeat split; assumption].
  exists l. repeat split; assumption.
Qed.

Lemma drawParticles_paints_sparkles_witness :
  let c' := drawParticles fresh_canvas (Fin 1024) (Fin 1024) 150
                          (lit (7 # 10)) in
  (exists l,
      surface c' = surface fresh_canvas ++ l
      /\ length l = Z.to_nat 150
      /\ Forall (sparkle 1024 1024
                   (mkDrawState screen (filter (ctx fresh_canvas))
                      (fillStyle (ctx fresh_canvas))
                      (strokeStyle (ctx fresh_canvas))
                      (lineWidth (ctx fresh_canvas))))
                l)
  /\ ctx c' = ctx fresh_canvas
  /\ saved c' = saved fresh_canvas
  /\ cv_width c' = cv_width fresh_canvas
  /\ cv_height c' = cv_height fresh_canvas.
Proof.
  apply (drawParticles_paints_sparkles fresh_canvas 1024 1024 150
           (lit (7 # 10))); reflexivity.
Defined.

Lemma particles_fills_only (W H : number) (n : nat) (c : Canvas) (g : Stream) :
  exists l, surface (fst (repeat_loop n (particle W H) (c, g))) = surface c ++ l
            /\ length l = n /\ forallb is_fill l = true.
Proof.
  induction n as [| n IH].
  - exists []. cbn. now rewrite app_nil_r.
  - rewrite repeat_loop_succ.
    destruct (repeat_loop n _ (c, g)) as [c1 g1]. cbn [fst] in IH.
    destruct IH as (l & I1 & I2 & I3).
    destruct (particle_effect W H c1 g1) as (_ & _ & _ & (p & Pf & Ps) & _).
    exists (l ++ [p]). rewrite Ps, I1, <- app_assoc, length_app, I2.
    rewrite forallb_app, I3. cbn. rewrite Pf. repeat split. lia.
Qed.

Lemma drawParticles_surface (c : Canvas) (W H : number) (count : Z)
    (intensity : number) :
  surface (drawParticles c W H count intensity)
  = surface (fst (repeat_loop (Z.to_nat count) (particle W H)
                    (set_globalCompositeOperation screen (save c),
                     seeded (particle_seed W H intensity)))).
Proof.
  unfold drawParticles.
  pose proof (particles_effect W H (Z.to_nat count)
                (set_globalCompositeOperation screen (save c))
                (seeded (particle_seed W H intensity))) as E.
  cbv zeta in E.
  destruct (repeat_loop _ _ _) as [c1 g1]. cbn [fst snd] in *.
  destruct E as (E1 & _). unfold restore. rewrite E1. reflexivity.
Qed.

(** X8. Raising the particle count keeps every sparkle already painted and
    adds the new ones after them: the surface for [n + k] particles is the
    surface for [n] particles followed by [k] more filled paths. *)
Theorem more_particles_extend_the_layer :
  forall (c : Canvas) (W H intensity : number) (n k : Z),
    0 <= n -> 0 <= k ->
    exists l,
      surface (drawParticles c W H (n + k) intensity)
      = surface (drawParticles c W H n intensity) ++ l
      /\ length l = Z.to_nat k
      /\ forallb is_fill l = true.
Proof.
  intros c W H intensity n k Hn Hk.
  rewrite !drawParticles_surface, Z2Nat.inj_add, repeat_loop_add by assumption.
  destruct (repeat_loop (Z.to_nat n) _ _) as [c1 g1].
  apply particles_fills_only.
Qed.

Lemma more_particles_extend_the_layer_witness :
  exists l,
    surface (drawParticles fresh_canvas (ofZ 512) (ofZ 512) (20 + 10) (ofZ 0))
    = surface (drawParticles fresh_canvas (ofZ 512) (ofZ 512) 20 (ofZ 0)) ++ l
    /\ length l = Z.to_nat 10
    /\ forallb is_fill l = true.
Proof.
  apply (more_particles_extend_the_layer fresh_canvas (ofZ 512) (ofZ 512)
           (ofZ 0) 20 10); lia.
Defined.

(** ** The parameters of a branch *)

Lemma product_bounds (A B lo hi : Q) :
  (0 < lo)%Q -> (lo <= A < hi)%Q -> (7 # 10 <= B <= 13 # 10)%Q ->
  (lo * (7 # 10) <= A * B < hi * (13 # 10))%Q.
Proof.
  intros Hlo HA HB. split.
  - assert (H1 : (0 <= (A - lo) * B)%Q) by (apply Qmult_le_0_compat; lra).
    assert (H2 : (0 <= lo * (B - (7 # 10)))%Q)
      by (apply Qmult_le_0_compat; lra).
    setoid_replace (A * B)%Q
      with (lo * (7 # 10) + (A - lo) * B + lo * (B - (7 # 10)))%Q by ring.
    lra.
  - assert (H1 : (0 < (hi - A) * B)%Q) by (apply Qmult_lt_0_compat; lra).
    assert (H2 : (0 <= hi * ((13 # 10) - B))%Q)
      by (apply Qmult_le_0_compat; lra).
    setoid_replace (hi * (13 # 10))%Q
      with (A * B + (hi - A) * B + hi * ((13 # 10) - B))%Q by ring.
    lra.
Qed.

(** X9. On a surface of positive size and for an intensity of [0, 1], a
    branch of the lightning layer starts in the inner 80% of the surface,
    has a total length between 0.175 and 0.78 times the height, 15 to 32
    segments, a jitter magnitude between 10 and 40, and a heading of
    [0, 2 * Math.PI). *)
Theorem branch_parameters_in_range :
  forall (w h i : Q) (g : Stream),
    (0 < w)%Q -> (0 < h)%Q -> (0 <= i <= 1)%Q ->
    let b := branch_setup (Fin w) (Fin h) (Fin i) g in
    exists (x y l j a pi : Q) (k : Z),
      x0 b = Fin x /\ (w * (1 # 10) <= x < w * (9 # 10))%Q
      /\ y0 b = Fin y /\ (h * (1 # 10) <= y < h * (9 # 10))%Q
      /\ len b = Fin l /\ (h * (7 # 40) <= l < h * (39 # 50))%Q
      /\ segments b = ofZ k /\ 15 <= k <= 32
      /\ jitter b = Fin j /\ (10 <= j < 40)%Q
      /\ angle b = Fin a /\ Math_PI = Fin pi /\ (0 <= a < 2 * pi)%Q.
Proof.
  intros w h i g Hw Hh Hi. cbv zeta.
  destruct (branch_segments_range (Fin w) (Fin h) (Fin i) g)
    as (k & Hk & Rk & _).
  destruct (branch_jitter_range (Fin w) (Fin h) (Fin i) g) as (j & Hj & Rj).
  revert Hk Hj. unfold branch_setup.
  unit_rnd g q1 R1.
  match goal with |- context [rnd ?g] => unit_rnd g q2 R2 end.
  match goal with |- context [rnd ?g] => unit_rnd g q3 R3 end.
  match goal with |- context [rnd ?g] => unit_rnd g q4 R4 end.
  match goal with |- context [rnd ?g] => unit_rnd g q5 R5 end.
  match goal with |- context [rnd ?g] => unit_rnd g q6 R6 end.
  cbn [x0 y0 len segments jitter angle]. intros Hk Hj.
  unfold nmul at 1 2 3 4 5 6 7 8 9 10, nadd at 1 2 3 4, lit, Math_PI, lit.
  do 6 eexists. exists k.
  change (Qred (8 # 10)) with (4 # 5).
  change (Qred (1 # 10)) with (1 # 10).
  change (Qred (25 # 100)) with (1 # 4).
  change (Qred (35 # 100)) with (7 # 20).
  change (Qred (7 # 10)) with (7 # 10).
  change (Qred (6 # 10)) with (3 # 5).
  split; [reflexivity |].
  split.
  { rewrite !Qred_correct.
    assert (T : (0 <= q1 * w < 1 * w)%Q)
      by (split; [apply Qmult_le_0_compat; lra
                 | apply Qmult_lt_compat_r; lra]).
    revert T. generalize (q1 * w)%Q. intros t T. lra. }
  split; [reflexivity |].
  split.
  { rewrite !Qred_correct.
    assert (T : (0 <= q2 * h < 1 * h)%Q)
      by (split; [apply Qmult_le_0_compat; lra
                 | apply Qmult_lt_compat_r; lra]).
    revert T. generalize (q2 * h)%Q. intros t T. lra. }
  split; [reflexivity |].
  split.
  { rewrite !Qred_correct.
    assert (T : (0 <= q3 * h < 1 * h)%Q)
      by (split; [apply Qmult_le_0_compat; lra
                 | apply Qmult_lt_compat_r; lra]).
    revert T. generalize (q3 * h)%Q. intros t T.
    pose proof (product_bounds (h * (1 # 4) + t * (7 # 20))
                  ((7 # 10) + i * (3 # 5)) (h * (1 # 4)) (h * (3 # 5))) as P.
    assert (P' : (h * (1 # 4) * (7 # 10)
                  <= (h * (1 # 4) + t * (7 # 20)) * ((7 # 10) + i * (3 # 5))
                  < h * (3 # 5) * (13 # 10))%Q) by (apply P; lra).
    lra. }
  split; [exact Hk |].
  split; [exact Rk |].
  split; [exact Hj |].
  split; [exact Rj |].
  split; [reflexivity |].
  split; [reflexivity |].
  rewrite !Qred_correct.
  set (pi := (884279719003555 # 281474976710656)%Q).
  assert (Hpi : (0 < pi)%Q) by reflexivity.
  assert (T : (0 <= q6 * pi < 1 * pi)%Q)
    by (split; [apply Qmult_le_0_compat; lra
               | apply Qmult_lt_compat_r; lra]).
  change (inject_Z 2) with 2%Q. lra.
Qed.

Lemma branch_parameters_in_range_witness :
  let b := branch_setup (Fin 1024) (Fin 1024) (Fin (7 # 10))
                        (seeded (ofZ 13045)) in
  exists (x y l j a pi : Q) (k : Z),
    x0 b = Fin x /\ (1024 * (1 # 10) <= x < 1024 * (9 # 10))%Q
    /\ y0 b = Fin y /\ (1024 * (1 # 10) <= y < 1024 * (9 # 10))%Q
    /\ len b = Fin l /\ (1024 * (7 # 40) <= l < 1024 * (39 # 50))%Q
    /\ segments b = ofZ k /\ 15 <= k <= 32
    /\ jitter b = Fin j /\ (10 <= j < 40)%Q
    /\ angle b = Fin a /\ Math_PI = Fin pi /\ (0 <= a < 2 * pi)%Q.
Proof.
  apply (branch_parameters_in_range 1024 1024 (7 # 10) (seeded (ofZ 13045)));
    [reflexivity | reflexivity | split; discriminate].
Defined.

(** ** The order of the layers *)

Lemma paints_tagged_compose (f g : Canvas -> Canvas) (T U : list Tag) :
  paints_tagged f T -> paints_tagged g U ->
  paints_tagged (fun c => g (f c)) (T ++ U).
Proof.
  intros Hf Hg c Hc.
  destruct (Hf c Hc) as (F1 & F2 & F3 & F4 & F5).
  destruct (Hg (f c) F1) as (G1 & G2 & G3 & G4 & G5).
  rewrite G2, G3, G4, G5, F2, F3, F4, F5, app_assoc. repeat split; apply G1.
Qed.

Ltac tagged_tac :=
  canvas_unfold; unfold neutral, tag, has_filter;
  cbn [ctx saved surface globalCompositeOperation filter cv_width cv_height];
  rewrite ?map_app;
  cbn [map kind_of paint_state option_map globalCompositeOperation filter].

Lemma drawBase_tagged (img : HTMLImageElement) (p : Settings) :
  paints_tagged (drawBase img p) [tag_image].
Proof.
  intros c [Ho Hf]. unfold drawBase. tagged_tac. rewrite Ho.
  repeat split; assumption.
Qed.

Lemma drawTint_tagged (p : Settings) : paints_tagged (drawTint p) [tag_tint].
Proof.
  intros c [Ho Hf]. unfold drawTint. tagged_tac. rewrite Hf.
  repeat split.
Qed.

Lemma drawGlow_tagged (p : Settings) :
  paints_tagged (drawGlow p)
                (if ngt (glow p) (ofZ 0) then [tag_glow] else []).
Proof.
  intros c [Ho Hf]. unfold drawGlow. destruct (ngt (glow p) (ofZ 0)).
  - tagged_tac. repeat split; assumption.
  - rewrite app_nil_r. repeat split; assumption.
Qed.

Lemma drawVignette_tagged (p : Settings) :
  paints_tagged (drawVignette p)
                (if ngt (vignette p) (ofZ 0) then [tag_vignette] else []).
Proof.
  intros c [Ho Hf]. unfold drawVignette. destruct (ngt (vignette p) (ofZ 0)).
  - tagged_tac. rewrite Ho, Hf. repeat split.
  - rewrite app_nil_r. repeat split; assumption.
Qed.

Lemma particle_tagged (W H : number) (c : Canvas) (g : Stream) :
  let r := particle W H (c, g) in
  map tag (surface (fst r))
  = map tag (surface c)
    ++ [(KFill, Some (globalCompositeOperation (ctx c), has_filter (ctx c)))]
  /\ cv_width (fst r) = cv_width c
  /\ cv_height (fst r) = cv_height c.
Proof.
  unfold particle. cbv zeta.
  repeat (next_rnd; cbn [fst snd]). tagged_tac. repeat split.
Qed.

Lemma particles_tagged (W H : number) (n : nat) (c : Canvas) (g : Stream) :
  let r := repeat_loop n (particle W H) (c, g) in
  map tag (surface (fst r))
  = map tag (surface c)
    ++ repeat (KFill, Some (globalCompositeOperation (ctx c),
                            has_filter (ctx c))) n
  /\ cv_width (fst r) = cv_width c
  /\ cv_height (fst r) = cv_height c.
Proof.
  induction n as [| n IH].
  - cbn. now rewrite app_nil_r.
  - rewrite repeat_loop_succ. cbv zeta in IH |- *.
    pose proof (particles_effect W H n c g) as E. cbv zeta in E.
    destruct (repeat_loop n _ (c, g)) as [c1 g1]. cbn [fst snd] in IH, E.
    destruct IH as (I1 & I2 & I3). destruct E as (_ & E2 & E3 & _).
    destruct (particle_tagged W H c1 g1) as (P1 & P2 & P3).
    cbv zeta in P1, P2, P3. rewrite P1, P2, P3, I1, I2, I3.
    unfold has_filter. rewrite E2, E3. fold (has_filter (ctx c)).
    rewrite <- app_assoc. repeat split.
    f_equal. change (S n) with (1 + n)%nat.
    rewrite Nat.add_comm, repeat_app. reflexivity.
Qed.

Lemma drawParticles_tagged (W H : number) (count : Z) (intensity : number) :
  paints_tagged (fun c => drawParticles c W H count intensity)
                (repeat tag_sparkle (Z.to_nat count)).
Proof.
  intros c Hc.
  destruct (drawParticles_effect c W H count intensity) as (E1 & E2 & _).
  rewrite drawParticles_surface.
  pose proof (particles_tagged W H (Z.to_nat count)
                (set_globalCompositeOperation screen (save c))
                (seeded (particle_seed W H intensity))) as T.
  cbv zeta in T. destruct T as (T1 & T2 & T3).
  assert (D : cv_width (drawParticles c W H count intensity) = cv_width c
              /\ cv_height (drawParticles c W H count intensity)
                 = cv_height c).
  { unfold drawParticles.
    destruct (repeat_loop _ _ _) as [c1 g1]. cbn [fst] in T2, T3.
    unfold restore. destruct (saved c1); cbn [cv_width cv_height];
      rewrite ?T2, ?T3; split; reflexivity. }
  destruct D as (D1 & D2).
  rewrite T1. destruct Hc as [Ho Hf].
  unfold has_filter.
  cbn [set_globalCompositeOperation with_ctx save ctx surface
       globalCompositeOperation filter].
  rewrite Hf. repeat split; try assumption; rewrite E1; assumption.
Qed.

Section LayerProperties.

Variable Math_cos Math_sin : number -> number.

Lemma bolt_dims (W H intensity : number) (c : Canvas) (g : Stream) :
  cv_width (fst (bolt Math_cos Math_sin W H intensity (c, g))) = cv_width c
  /\ cv_height (fst (bolt Math_cos Math_sin W H intensity (c, g)))
     = cv_height c.
Proof.
  unfold bolt. cbv beta iota zeta.
  generalize (branch_walk Math_cos Math_sin (branch_setup W H intensity g)).
  intros w. cbn [fst].
  destruct (two_strokes c (pts w) intensity) as (_ & _ & _ & D1 & D2).
  cbv zeta in D1, D2. now rewrite D1, D2.
Qed.

(** The bolts painted over two canvases in the same drawing state are the
    same bolts. *)
Lemma bolts_same (W H intensity : number) (n : nat) :
  forall (c c' : Canvas) (g : Stream),
    ctx c = ctx c' ->
    let r := repeat_loop n (bolt Math_cos Math_sin W H intensity) (c, g) in
    let r' := repeat_loop n (bolt Math_cos Math_sin W H intensity) (c', g) in
    exists L,
      surface (fst r) = surface c ++ L
      /\ surface (fst r') = surface c' ++ L
      /\ forallb is_stroke L = true
      /\ map tag L
         = concat (repeat [(KStroke, Some (globalCompositeOperation (ctx c),
                                           true));
                           (KStroke, Some (globalCompositeOperation (ctx c),
                                           false))] n)
      /\ ctx (fst r) = ctx (fst r')
      /\ snd r = snd r'
      /\ globalCompositeOperation (ctx (fst r))
         = globalCompositeOperation (ctx c)
      /\ cv_width (fst r) = cv_width c
      /\ cv_height (fst r) = cv_height c.
Proof.
  induction n as [| n IH]; intros c c' g Hc.
  - exists []. cbn. rewrite !app_nil_r. repeat split. exact Hc.
  - rewrite !repeat_loop_succ. cbv zeta.
    destruct (IH c c' g Hc) as (L & I1 & I2 & I3 & I4 & I5 & I6 & I7 & I8 & I9).
    cbv zeta in I1, I2, I3, I4, I5, I6, I7, I8, I9.
    destruct (repeat_loop n _ (c, g)) as [c1 g1].
    destruct (repeat_loop n _ (c', g)) as [c1' g1'].
    cbn [fst snd] in I1, I2, I5, I6, I7, I8, I9. subst g1'.
    destruct (bolt_exact Math_cos Math_sin
                W H intensity c1 g1) as (B1 & _ & _ & _ & B2 & B3 & _).
    destruct (bolt_exact Math_cos Math_sin
                W H intensity c1' g1) as (B1' & _ & _ & _ & B2' & B3' & _).
    destruct (bolt_dims W H intensity c1 g1) as (D1 & D2).
    cbv zeta in B1, B2, B3, B1', B2', B3'.
    rewrite B1, B1', B2, B2', B3, B3', D1, D2, I1, I2, I5, I8, I9.
    eexists. split; [rewrite <- app_assoc; reflexivity |].
    split; [rewrite <- app_assoc; reflexivity |].
    rewrite forallb_app, I3, map_app, I4.
    cbn [forallb is_stroke andb map]. unfold tag, has_filter.
    cbn [kind_of paint_state option_map glow_stroke core_stroke
         globalCompositeOperation filter filter_none].
    rewrite <- I5, I7.
    repeat split.
    change (S n) with (1 + n)%nat.
    rewrite Nat.add_comm, repeat_app, concat_app. cbn [repeat concat app].
    reflexivity.
Qed.

Lemma drawLightning_surface (c : Canvas) (W H : number) (branches : Z)
    (intensity : number) :
  let r := repeat_loop (Z.to_nat branches)
             (bolt Math_cos Math_sin W H intensity)
             (set_globalCompositeOperation screen (save c),
              seeded (lightning_seed intensity)) in
  surface (drawLightning Math_cos Math_sin c W H branches intensity)
  = surface (fst r)
  /\ cv_width (drawLightning Math_cos Math_sin c W H branches intensity)
     = cv_width (fst r)
  /\ cv_height (drawLightning Math_cos Math_sin c W H branches intensity)
     = cv_height (fst r).
Proof.
  unfold drawLightning. cbv zeta.
  destruct (repeat_loop _ _ _) as [c1 g1]. cbn [fst].
  unfold restore. destruct (saved c1); repeat split.
Qed.

(** The bolts depend on the canvas through its drawing state only. *)
Lemma drawLightning_same (c c' : Canvas) (W H : number) (branches : Z)
    (intensity : number) :
  ctx c = ctx c' ->
  exists L,
    surface (drawLightning Math_cos Math_sin c W H branches intensity)
    = surface c ++ L
    /\ surface (drawLightning Math_cos Math_sin c' W H branches intensity)
       = surface c' ++ L
    /\ forallb is_stroke L = true
    /\ map tag L
       = concat (repeat [tag_bolt_glow; tag_bolt_core] (Z.to_nat branches))
    /\ cv_width (drawLightning Math_cos Math_sin c W H branches intensity)
       = cv_width c
    /\ cv_height (drawLightning Math_cos Math_sin c W H branches intensity)
       = cv_height c.
Proof.
  intros Hc.
  destruct (drawLightning_surface c W H branches intensity) as (-> & -> & ->).
  destruct (drawLightning_surface c' W H branches intensity) as (-> & _).
  assert (Hs : ctx (set_globalCompositeOperation screen (save c))
               = ctx (set_globalCompositeOperation screen (save c'))).
  { canvas_unfold. now rewrite Hc. }
  destruct (bolts_same W H intensity (Z.to_nat branches) _ _
              (seeded (lightning_seed intensity)) Hs)
    as (L & I1 & I2 & I3 & I4 & _ & _ & _ & I8 & I9).
  cbv zeta in I1, I2, I8, I9.
  exists L. rewrite I1, I2, I8, I9. repeat split; assumption.
Qed.

Lemma lightning_tagged (p : Settings) :
  paints_tagged
    (fun c => if lightning p
              then drawLightning Math_cos Math_sin c (ofZ (size p))
                                 (ofZ (size p)) 6 (intensity p)
              else c)
    (if lightning p
     then concat (repeat [tag_bolt_glow; tag_bolt_core] 6)
     else []).
Proof.
  intros c Hc. destruct (lightning p).
  - destruct (drawLightning_effect Math_cos Math_sin c (ofZ (size p))
                (ofZ (size p)) 6 (intensity p)) as (E1 & E2 & _).
    destruct (drawLightning_same c c (ofZ (size p)) (ofZ (size p)) 6
                (intensity p) eq_refl) as (L & S1 & _ & _ & S4 & S5 & S6).
    cbv zeta in E1, E2.
    rewrite S1, map_app, S4, E2, S5, S6.
    unfold neutral. rewrite E1. repeat split; apply Hc.
  - rewrite app_nil_r. repeat split; apply Hc.
Qed.

Lemma drawBackground_tagged (p : Settings) (cv : Canvas) :
  neutral (drawBackground p cv)
  /\ map tag (surface (drawBackground p cv))
     = [tag_clear]
       ++ match background p with
          | dark => [tag_backdrop]
          | transparent => []
          end
  /\ saved (drawBackground p cv) = []
  /\ cv_width (drawBackground p cv) = size p
  /\ cv_height (drawBackground p cv) = size p.
Proof.
  unfold drawBackground, neutral. destruct (background p); repeat split.
Qed.

Lemma image_stages_tagged (img : HTMLImageElement) (p : Settings)
    (c : Canvas) :
  neutral c ->
  let c' := run_stages (image_stages Math_cos Math_sin img p) c in
  map tag (surface c')
  = map tag (surface c)
    ++ [tag_image; tag_tint]
    ++ (if ngt (glow p) (ofZ 0) then [tag_glow] else [])
    ++ repeat tag_sparkle (Z.to_nat (particles p))
    ++ (if lightning p
        then concat (repeat [tag_bolt_glow; tag_bolt_core] 6)
        else [])
    ++ (if ngt (vignette p) (ofZ 0) then [tag_vignette] else [])
  /\ saved c' = saved c
  /\ cv_width c' = cv_width c
  /\ cv_height c' = cv_height c.
Proof.
  intros Hc.
  pose proof
    (paints_tagged_compose _ _ _ _
       (paints_tagged_compose _ _ _ _
          (paints_tagged_compose _ _ _ _
             (paints_tagged_compose _ _ _ _
                (paints_tagged_compose _ _ _ _
                   (drawBase_tagged img p) (drawTint_tagged p))
                (drawGlow_tagged p))
             (drawParticles_tagged (ofZ (size p)) (ofZ (size p))
                                   (particles p) (intensity p)))
          (lightning_tagged p))
       (drawVignette_tagged p)) as T.
  destruct (T c Hc) as (_ & T2 & T3 & T4 & T5).
  cbv zeta. unfold image_stages, run_stages. cbv zeta. cbn [fold_left].
  cbv beta in T2, T3, T4, T5 |- *.
  rewrite T2, T3, T4, T5. repeat split.
  f_equal. cbn [app]. rewrite <- !app_assoc. reflexivity.
Qed.

(** X10. Whatever canvas it is given, [draw] leaves it [size] by [size], with
    no saved state left on the stack: every [save] of the pass was matched
    by a [restore]. *)
Theorem draw_output_size :
  forall (img : option HTMLImageElement) (p : Settings) (cv : Canvas),
    cv_width (draw Math_cos Math_sin img p cv) = size p
    /\ cv_height (draw Math_cos Math_sin img p cv) = size p
    /\ saved (draw Math_cos Math_sin img p cv) = [].
Proof.
  intros img p cv.
  destruct (drawBackground_tagged p cv) as (B1 & _ & B3 & B4 & B5).
  destruct img as [im |]; unfold draw.
  - destruct (image_stages_tagged im p (drawBackground p cv) B1)
      as (_ & T2 & T3 & T4).
    cbv zeta in T2, T3, T4. rewrite T2, T3, T4. repeat split; assumption.
  - repeat split; assumption.
Qed.

(** X11. The painting calls of a render come in the order of the layers and
    each under its own compositing: the clear; the backdrop gradient (dark
    background only), source-over; the image, source-over under the
    contrast and saturation filter; the tint, screen; the self-blurred copy
    (when [glow > 0]), screen under a filter; the [particles] sparkles,
    screen; for each of the 6 bolts (when [lightning] is on) a filtered and
    an unfiltered stroke, screen; the vignette (when [vignette > 0]),
    source-over.  Without an image only the clear and the backdrop are
    there. *)
Theorem layers_in_order :
  forall (p : Settings) (cv : Canvas),
    (forall img : HTMLImageElement,
        map tag (surface (draw Math_cos Math_sin (Some img) p cv)) = layers p)
    /\ map tag (surface (draw Math_cos Math_sin None p cv))
       = [tag_clear]
         ++ match background p with
            | dark => [tag_backdrop]
            | transparent => []
            end.
Proof.
  intros p cv.
  destruct (drawBackground_tagged p cv) as (B1 & B2 & _).
  split; [| exact B2].
  intros img. unfold draw.
  destruct (image_stages_tagged img p (drawBackground p cv) B1) as (T1 & _).
  cbv zeta in T1. rewrite T1, B2. unfold layers.
  rewrite <- !app_assoc. reflexivity.
Qed.

(** ** Layers that do not disturb each other *)

Lemma filter_none_of (l : list Paint) (f : Paint -> bool) :
  length (List.filter f l) = O ->
  List.filter f l = [] /\ List.filter (fun x => negb (f x)) l = l.
Proof.
  induction l as [| a l IH]; cbn; [now split |].
  destruct (f a); cbn; [discriminate |].
  intros Hl. destruct (IH Hl) as (I1 & I2). now rewrite I2.
Qed.

Lemma filter_all_of (l : list Paint) (f : Paint -> bool) :
  forallb f l = true ->
  List.filter f l = l /\ List.filter (fun x => negb (f x)) l = [].
Proof.
  induction l as [| a l IH]; cbn; [now split |].
  destruct (f a); cbn; [| discriminate].
  intros Hl. destruct (IH Hl) as (I1 & I2). now rewrite I1.
Qed.

(** The vignette depends on the canvas through its drawing state only, and
    strokes nothing. *)
Lemma drawVignette_same (p : Settings) (c c' : Canvas) :
  ctx c = ctx c' ->
  exists l,
    surface (drawVignette p c) = surface c ++ l
    /\ surface (drawVignette p c') = surface c' ++ l
    /\ List.filter is_stroke l = []
    /\ List.filter (fun x => negb (is_stroke x)) l = l.
Proof.
  intros Hc. unfold drawVignette. destruct (ngt (vignette p) (ofZ 0)).
  - canvas_unfold. rewrite Hc. eexists. repeat split.
  - exists []. rewrite !app_nil_r. repeat split.
Qed.

Lemma before_particles_no_strokes (img : HTMLImageElement) (p : Settings)
    (cv : Canvas) :
  strokes (drawGlow p (drawTint p (drawBase img p (drawBackground p cv)))) = O.
Proof.
  destruct (drawBackground_reset p cv) as (_ & _ & _ & S0).
  destruct (drawBase_plain img p (drawBackground p cv)) as (_ & _ & S1 & _).
  destruct (drawTint_plain p (drawBase img p (drawBackground p cv)))
    as (_ & _ & S2 & _).
  destruct (drawGlow_plain p
              (drawTint p (drawBase img p (drawBackground p cv))))
    as (_ & _ & S3 & _).
  now rewrite S3, S2, S1, S0.
Qed.

(** X12. Switching [lightning] off removes the strokes of the bolts and
    changes nothing else: the surface rendered without lightning is the
    surface rendered with it, minus its stroked paths. *)
Theorem lightning_only_adds_strokes :
  forall (img : option HTMLImageElement) (p : Settings) (cv : Canvas),
    List.filter (fun x => negb (is_stroke x))
      (surface (draw Math_cos Math_sin img (with_lightning true p) cv))
    = surface (draw Math_cos Math_sin img (with_lightning false p) cv).
Proof.
  intros [im |] p cv.
  - destruct (draw_with_image_effect Math_cos Math_sin im
                (with_lightning false p) cv) as (_ & _ & Soff).
    cbn [lightning with_lightning] in Soff.
    apply (filter_none_of _ is_stroke) in Soff. destruct Soff as (_ & Soff).
    rewrite <- Soff.
    rewrite !draw_with_image. cbv zeta.
    cbn [lightning with_lightning size particles intensity].
    change (drawVignette (with_lightning true p)) with (drawVignette p).
    change (drawVignette (with_lightning false p)) with (drawVignette p).
    change (drawGlow (with_lightning true p)) with (drawGlow p).
    change (drawGlow (with_lightning false p)) with (drawGlow p).
    change (drawTint (with_lightning true p)) with (drawTint p).
    change (drawTint (with_lightning false p)) with (drawTint p).
    change (drawBase im (with_lightning true p)) with (drawBase im p).
    change (drawBase im (with_lightning false p)) with (drawBase im p).
    change (drawBackground (with_lightning true p)) with (drawBackground p).
    change (drawBackground (with_lightning false p)) with (drawBackground p).
    set (c4 := drawParticles _ _ _ _ _).
    destruct (drawLightning_effect Math_cos Math_sin c4 (ofZ (size p))
                (ofZ (size p)) 6 (intensity p)) as (E1 & _).
    destruct (drawLightning_same c4 c4 (ofZ (size p)) (ofZ (size p)) 6
                (intensity p) eq_refl) as (L & L1 & _ & L3 & _).
    cbv zeta in E1.
    destruct (drawVignette_same p _ c4 E1) as (l & V1 & V2 & _ & V4).
    rewrite V1, V2, L1, !filter_app.
    destruct (filter_all_of L is_stroke L3) as (_ & ->).
    now rewrite app_nil_r.
  - cbn [draw].
    change (drawBackground (with_lightning true p)) with (drawBackground p).
    change (drawBackground (with_lightning false p)) with (drawBackground p).
    destruct (drawBackground_reset p cv) as (_ & _ & _ & S0).
    now destruct (filter_none_of _ is_stroke S0).
Qed.

(** X13. The particle count does not move the bolts: two renders that
    differ in [particles] only stroke the same paths in the same drawing
    states. *)
Theorem bolts_ignore_particle_count :
  forall (img : option HTMLImageElement) (p : Settings) (cv : Canvas)
         (n m : Z),
    List.filter is_stroke
      (surface (draw Math_cos Math_sin img (with_particles n p) cv))
    = List.filter is_stroke
        (surface (draw Math_cos Math_sin img (with_particles m p) cv)).
Proof.
  intros [im |] p cv n m; [| reflexivity].
  rewrite !draw_with_image. cbv zeta.
  cbn [lightning with_particles size particles intensity].
  change (drawVignette (with_particles n p)) with (drawVignette p).
  change (drawVignette (with_particles m p)) with (drawVignette p).
  change (drawGlow (with_particles n p)) with (drawGlow p).
  change (drawGlow (with_particles m p)) with (drawGlow p).
  change (drawTint (with_particles n p)) with (drawTint p).
  change (drawTint (with_particles m p)) with (drawTint p).
  change (drawBase im (with_particles n p)) with (drawBase im p).
  change (drawBase im (with_particles m p)) with (drawBase im p).
  change (drawBackground (with_particles n p)) with (drawBackground p).
  change (drawBackground (with_particles m p)) with (drawBackground p).
  pose proof (before_particles_no_strokes im p cv) as S3.
  set (c3 := drawGlow p _) in *.
  destruct (drawParticles_effect c3 (ofZ (size p)) (ofZ (size p)) n
              (intensity p)) as (An & _ & _ & _ & Sn).
  destruct (drawParticles_effect c3 (ofZ (size p)) (ofZ (size p)) m
              (intensity p)) as (Am & _ & _ & _ & Sm).
  set (cn := drawParticles c3 _ _ n _) in *.
  set (cm := drawParticles c3 _ _ m _) in *.
  rewrite S3 in Sn, Sm.
  destruct (filter_none_of _ is_stroke Sn) as (Fn & _).
  destruct (filter_none_of _ is_stroke Sm) as (Fm & _).
  assert (Hc : ctx cn = ctx cm) by (now rewrite An, Am).
  destruct (lightning p).
  - destruct (drawLightning_effect Math_cos Math_sin cn (ofZ (size p))
                (ofZ (size p)) 6 (intensity p)) as (En & _).
    destruct (drawLightning_effect Math_cos Math_sin cm (ofZ (size p))
                (ofZ (size p)) 6 (intensity p)) as (Em & _).
    destruct (drawLightning_same cn cm (ofZ (size p)) (ofZ (size p)) 6
                (intensity p) Hc) as (L & L1 & L2 & _).
    cbv zeta in En, Em.
    destruct (drawVignette_same p _ _ (eq_trans En (eq_trans Hc (eq_sym Em))))
      as (l & V1 & V2 & V3 & _).
    rewrite V1, V2, L1, L2, !filter_app, Fn, Fm. reflexivity.
  - destruct (drawVignette_same p cn cm Hc) as (l & V1 & V2 & V3 & _).
    rewrite V1, V2, !filter_app, Fn, Fm. reflexivity.
Qed.

End LayerProperties.

(** ** The tint *)

(** X14. Whatever [cyanize] is, short of NaN, the tint is one screen fill of
    the whole surface with a radial gradient whose opacity is at most 0.35
    at the centre and at most 0.10 at the rim, and never negative. *)
Theorem tint_opacity_bounded :
  forall (p : Settings) (c : Canvas),
    cyanize p <> NaN ->
    let W := ofZ (size p) in
    exists a0 a1 : Q,
      surface (drawTint p c)
      = surface c
        ++ [FillRect (ofZ 0) (ofZ 0) W W
              (mkDrawState screen (filter (ctx c))
                 (RadialGradient
                    (ndiv W (ofZ 2)) (ndiv W (ofZ 2)) (nmul W (lit (15 # 100)))
                    (ndiv W (ofZ 2)) (ndiv W (ofZ 2)) (nmul W (lit (8 # 10)))
                    [(ofZ 0, rgba 0 255 255 (Fin a0));
                     (ofZ 1, rgba 0 160 255 (Fin a1))])
                 (strokeStyle (ctx c)) (lineWidth (ctx c)))]
      /\ (0 <= a0 <= 35 # 100)%Q
      /\ (0 <= a1 <= 10 # 100)%Q.
Proof.
  intros p c Hn. cbv zeta.
  destruct (clamp_unit (cyanize p) Hn) as (q & Hq & Rq).
  unfold drawTint. cbv zeta. rewrite Hq.
  canvas_unfold. cbn [addColorStop app].
  unfold nmul at 3 4, lit at 3 4.
  do 2 eexists. split; [reflexivity |].
  change (Qred (35 # 100)) with (7 # 20).
  change (Qred (10 # 100)) with (1 # 10).
  rewrite !Qred_correct. split; lra.
Qed.

Lemma tint_opacity_bounded_witness :
  exists a0 a1 : Q,
    surface (drawTint (with_cyanize (lit (15 # 10)) defaults) fresh_canvas)
    = surface fresh_canvas
      ++ [FillRect (ofZ 0) (ofZ 0) (ofZ 1024) (ofZ 1024)
            (mkDrawState screen (filter (ctx fresh_canvas))
               (RadialGradient
                  (ndiv (ofZ 1024) (ofZ 2)) (ndiv (ofZ 1024) (ofZ 2))
                  (nmul (ofZ 1024) (lit (15 # 100)))
                  (ndiv (ofZ 1024) (ofZ 2)) (ndiv (ofZ 1024) (ofZ 2))
                  (nmul (ofZ 1024) (lit (8 # 10)))
                  [(ofZ 0, rgba 0 255 255 (Fin a0));
                   (ofZ 1, rgba 0 160 255 (Fin a1))])
               (strokeStyle (ctx fresh_canvas))
               (lineWidth (ctx fresh_canvas)))]
    /\ (0 <= a0 <= 35 # 100)%Q
    /\ (0 <= a1 <= 10 # 100)%Q.
Proof.
  apply (tint_opacity_bounded (with_cyanize (lit (15 # 10)) defaults)
           fresh_canvas).
  discriminate.
Defined.

(** * The streams behind a render *)

Lemma sparkle_geoms_fills (l : list Paint) :
  sparkle_geoms l = sparkle_geoms (List.filter is_fill l).
Proof.
  unfold sparkle_geoms. induction l as [| a l IH]; [reflexivity |].
  destruct a; cbn; try exact IH; now rewrite IH.
Qed.

Lemma bolt_paths_strokes (l : list Paint) :
  bolt_paths l = bolt_paths (List.filter is_stroke l).
Proof.
  unfold bolt_paths. induction l as [| a l IH]; [reflexivity |].
  destruct a; cbn; try exact IH; now rewrite IH.
Qed.

Lemma sparkle_geoms_none (l : list Paint) :
  length (List.filter is_fill l) = O -> sparkle_geoms l = [].
Proof.
  intros H. rewrite sparkle_geoms_fills.
  now destruct (filter_none_of l is_fill H) as (-> & _).
Qed.

Lemma bolt_paths_none (l : list Paint) :
  length (List.filter is_stroke l) = O -> bolt_paths l = [].
Proof.
  intros H. rewrite bolt_paths_strokes.
  now destruct (filter_none_of l is_stroke H) as (-> & _).
Qed.

Lemma sparkle_geoms_of_strokes (l : list Paint) :
  forallb is_stroke l = true -> sparkle_geoms l = [].
Proof.
  unfold sparkle_geoms. induction l as [| a l IH]; [reflexivity |].
  destruct a; cbn; try discriminate. exact IH.
Qed.

Lemma bolt_paths_of_fills (l : list Paint) :
  forallb is_fill l = true -> bolt_paths l = [].
Proof.
  unfold bolt_paths. induction l as [| a l IH]; [reflexivity |].
  destruct a; cbn; try discriminate. exact IH.
Qed.

(** A sparkle takes its place, size and gradient from the generator alone:
    on any two canvases the same stream paints the same sparkle. *)
Lemma particle_geoms (W H : number) (c c' : Canvas) (g : Stream) :
  exists l l',
    surface (fst (particle W H (c, g))) = surface c ++ l
    /\ surface (fst (particle W H (c', g))) = surface c' ++ l'
    /\ sparkle_geoms l = sparkle_geoms l'
    /\ snd (particle W H (c, g)) = snd (particle W H (c', g)).
Proof.
  unfold particle. repeat (next_rnd; cbn [fst snd]). canvas_unfold.
  do 2 eexists. repeat split.
Qed.

Lemma particles_geoms (W H : number) (n : nat) :
  forall (c c' : Canvas) (g : Stream),
    exists l l',
      surface (fst (repeat_loop n (particle W H) (c, g))) = surface c ++ l
      /\ surface (fst (repeat_loop n (particle W H) (c', g)))
         = surface c' ++ l'
      /\ sparkle_geoms l = sparkle_geoms l'
      /\ bolt_paths l = []
      /\ snd (repeat_loop n (particle W H) (c, g))
         = snd (repeat_loop n (particle W H) (c', g)).
Proof.
  induction n as [| n IH]; intros c c' g.
  - exists [], []. cbn. now rewrite !app_nil_r.
  - rewrite !repeat_loop_succ.
    destruct (IH c c' g) as (l & l' & I1 & I2 & I3 & I4 & I5).
    destruct (repeat_loop n _ (c, g)) as [c1 g1].
    destruct (repeat_loop n _ (c', g)) as [c1' g1'].
    cbn [fst snd] in I1, I2, I5. subst g1'.
    destruct (particle_geoms W H c1 c1' g1) as (m & m' & P1 & P2 & P3 & P4).
    destruct (particle_effect W H c1 g1) as (_ & _ & _ & (q & Qf & Qs) & _).
    assert (Hm : m = [q])
      by (rewrite Qs in P1; now apply app_inv_head in P1).
    exists (l ++ m), (l' ++ m').
    rewrite P1, P2, P4, I1, I2, <- !app_assoc.
    unfold sparkle_geoms, bolt_paths in *.
    rewrite !flat_map_app, I3, P3, I4, Hm.
    repeat split. destruct q; try discriminate Qf. reflexivity.
Qed.

Section StreamDependency.

Variable Math_cos Math_sin : number -> number.

(** The points of a bolt come from the generator alone. *)
Lemma bolts_paths (W H intensity : number) (n : nat) :
  forall (c c' : Canvas) (g : Stream),
    exists L L',
      surface (fst (repeat_loop n (bolt Math_cos Math_sin W H intensity)
                                (c, g))) = surface c ++ L
      /\ surface (fst (repeat_loop n (bolt Math_cos Math_sin W H intensity)
                                   (c', g))) = surface c' ++ L'
      /\ bolt_paths L = bolt_paths L'
      /\ sparkle_geoms L = []
      /\ snd (repeat_loop n (bolt Math_cos Math_sin W H intensity) (c, g))
         = snd (repeat_loop n (bolt Math_cos Math_sin W H intensity) (c', g)).
Proof.
  induction n as [| n IH]; intros c c' g.
  - exists [], []. cbn. now rewrite !app_nil_r.
  - rewrite !repeat_loop_succ.
    destruct (IH c c' g) as (L & L' & I1 & I2 & I3 & I4 & I5).
    destruct (repeat_loop n _ (c, g)) as [c1 g1].
    destruct (repeat_loop n _ (c', g)) as [c1' g1'].
    cbn [fst snd] in I1, I2, I5. subst g1'.
    destruct (bolt_exact Math_cos Math_sin W H intensity c1 g1)
      as (B1 & _ & _ & _ & B2 & _).
    destruct (bolt_exact Math_cos Math_sin W H intensity c1' g1)
      as (B1' & _ & _ & _ & B2' & _).
    cbv zeta in B1, B2, B1', B2'.
    rewrite B1, B1', B2, B2', I1, I2, <- !app_assoc.
    do 2 eexists. split; [reflexivity |]. split; [reflexivity |].
    unfold sparkle_geoms, bolt_paths in *.
    rewrite !flat_map_app, I3, I4. repeat split.
Qed.

Lemma drawVignette_appends (p : Settings) (c : Canvas) :
  exists l, surface (drawVignette p c) = surface c ++ l
            /\ sparkle_geoms l = [] /\ bolt_paths l = [].
Proof.
  unfold drawVignette. destruct (ngt (vignette p) (ofZ 0)).
  - canvas_unfold. eexists. repeat split.
  - exists []. rewrite app_nil_r. repeat split.
Qed.

Lemma before_particles_no_fills (img : HTMLImageElement) (p : Settings)
    (cv : Canvas) :
  fills (drawGlow p (drawTint p (drawBase img p (drawBackground p cv)))) = O.
Proof.
  destruct (drawBackground_reset p cv) as (_ & _ & F0 & _).
  destruct (drawBase_plain img p (drawBackground p cv)) as (_ & F1 & _).
  destruct (drawTint_plain p (drawBase img p (drawBackground p cv)))
    as (_ & F2 & _).
  destruct (drawGlow_plain p
              (drawTint p (drawBase img p (drawBackground p cv))))
    as (_ & F3 & _).
  now rewrite F3, F2, F1, F0.
Qed.

(** The sparkles and the bolts of a render are those the particle loop and
    the bolt loop paint on a blank canvas from the stream seeded with the
    particle seed and from the stream seeded with the lightning seed. *)
Lemma draw_procedural_layers (img : HTMLImageElement) (p : Settings)
    (cv : Canvas) :
  let W := ofZ (size p) in
  sparkle_geoms (surface (draw Math_cos Math_sin (Some img) p cv))
  = sparkle_geoms
      (surface
         (fst (repeat_loop (Z.to_nat (particles p)) (particle W W)
                 (fresh_canvas, seeded (particle_seed W W (intensity p))))))
  /\ bolt_paths (surface (draw Math_cos Math_sin (Some img) p cv))
     = if lightning p
       then bolt_paths
              (surface
                 (fst (repeat_loop 6
                         (bolt Math_cos Math_sin W W (intensity p))
                         (fresh_canvas,
                          seeded (lightning_seed (intensity p))))))
       else [].
Proof.
  cbv zeta. rewrite draw_with_image. cbv zeta.
  pose proof (before_particles_no_fills img p cv) as F3.
  pose proof (before_particles_no_strokes img p cv) as S3.
  set (c3 := drawGlow p _) in *.
  set (W := ofZ (size p)).
  (* the particle layer *)
  pose proof (drawParticles_surface c3 W W (particles p) (intensity p)) as P.
  destruct (drawParticles_effect c3 W W (particles p) (intensity p))
    as (_ & _ & _ & _ & S4).
  set (c4 := drawParticles c3 W W (particles p) (intensity p)) in *.
  destruct (particles_geoms W W (Z.to_nat (particles p))
              (set_globalCompositeOperation screen (save c3)) fresh_canvas
              (seeded (particle_seed W W (intensity p))))
    as (l & l' & P1 & P2 & P3 & P4 & _).
  rewrite P1 in P. rewrite P2.
  cbn [set_globalCompositeOperation with_ctx save surface] in P.
  cbn [fresh_canvas surface app].
  rewrite S3 in S4.
  (* the lightning layer *)
  assert (Lt : exists L L',
             surface (if lightning p
                      then drawLightning Math_cos Math_sin c4 W W 6
                                         (intensity p)
                      else c4) = surface c4 ++ L
             /\ sparkle_geoms L = []
             /\ bolt_paths L
                = (if lightning p then bolt_paths L' else [])
             /\ surface
                  (fst (repeat_loop 6
                          (bolt Math_cos Math_sin W W (intensity p))
                          (fresh_canvas,
                           seeded (lightning_seed (intensity p)))))
                = L').
  { destruct (bolts_paths W W (intensity p) 6
                (set_globalCompositeOperation screen (save c4)) fresh_canvas
                (seeded (lightning_seed (intensity p))))
      as (L & L' & B1 & B2 & B3 & B4 & _).
    cbn [fresh_canvas surface app] in B2.
    destruct (lightning p).
    - destruct (drawLightning_surface Math_cos Math_sin c4 W W 6
                  (intensity p)) as (D & _).
      cbv zeta in D. change (Z.to_nat 6) with 6%nat in D.
      exists L, L'. rewrite D, B1.
      cbn [set_globalCompositeOperation with_ctx save surface].
      repeat split; assumption.
    - exists [], L'. rewrite app_nil_r. repeat split. exact B2. }
  destruct Lt as (L & L' & L1 & L2 & L3 & L4).
  set (c5 := if lightning p then _ else c4) in *.
  destruct (drawVignette_appends p c5) as (v & V1 & V2 & V3).
  rewrite V1, L1, P, L4.
  unfold sparkle_geoms, bolt_paths in *.
  rewrite !flat_map_app.
  fold (sparkle_geoms (surface c3)). fold (bolt_paths (surface c3)).
  rewrite (sparkle_geoms_none _ F3), (bolt_paths_none _ S3).
  rewrite P3, P4, L2, L3, V2, V3, !app_nil_r. cbn [app].
  split; [reflexivity |]. destruct (lightning p); reflexivity.
Qed.

(** C2. [draw] starts by resizing the canvas, which resets it: the surface
    it leaves depends on the image and the settings only, not on what the
    canvas held before.  The only random values of a render are those of
    the particle loop and of the bolt loop, and they come from the stream
    seeded with [floor(intensity * 1e6) ^ size ^ size] and from the stream
    seeded with [12345 + floor(intensity * 1000)]: the sparkles and the
    bolts on the surface are those the two loops paint from these streams
    on a blank canvas, and without an image there are none.  So two renders
    that agree on [intensity] and [size] show the same bolts (if lightning
    is on in both) and the same sparkles, as far as their particle counts
    reach, whatever the images, the other settings and the canvases. *)
Theorem draw_deterministic :
  (forall (img : option HTMLImageElement) (p : Settings) (cv1 cv2 : Canvas),
      draw Math_cos Math_sin img p cv1 = draw Math_cos Math_sin img p cv2)
  /\ (forall (p1 p2 : Settings) (n : nat),
         intensity p1 = intensity p2 ->
         size p1 = size p2 ->
         draws n (seeded (particle_seed (ofZ (size p1)) (ofZ (size p1))
                                        (intensity p1)))
         = draws n (seeded (particle_seed (ofZ (size p2)) (ofZ (size p2))
                                          (intensity p2)))
         /\ draws n (seeded (lightning_seed (intensity p1)))
            = draws n (seeded (lightning_seed (intensity p2))))
  /\ (forall (img : HTMLImageElement) (p : Settings) (cv : Canvas),
         sparkle_geoms (surface (draw Math_cos Math_sin (Some img) p cv))
         = sparkle_geoms
             (surface
                (fst (repeat_loop (Z.to_nat (particles p))
                        (particle (ofZ (size p)) (ofZ (size p)))
                        (fresh_canvas,
                         seeded (particle_seed (ofZ (size p)) (ofZ (size p))
                                               (intensity p))))))
         /\ bolt_paths (surface (draw Math_cos Math_sin (Some img) p cv))
            = if lightning p
              then bolt_paths
                     (surface
                        (fst (repeat_loop 6
                                (bolt Math_cos Math_sin (ofZ (size p))
                                      (ofZ (size p)) (intensity p))
                                (fresh_canvas,
                                 seeded (lightning_seed (intensity p))))))
              else [])
  /\ (forall (p : Settings) (cv : Canvas),
         sparkle_geoms (surface (draw Math_cos Math_sin None p cv)) = []
         /\ bolt_paths (surface (draw Math_cos Math_sin None p cv)) = [])
  /\ (forall (img1 img2 : HTMLImageElement) (p1 p2 : Settings)
             (cv1 cv2 : Canvas),
         intensity p1 = intensity p2 ->
         size p1 = size p2 ->
         (lightning p1 = lightning p2 ->
          bolt_paths (surface (draw Math_cos Math_sin (Some img1) p1 cv1))
          = bolt_paths (surface (draw Math_cos Math_sin (Some img2) p2 cv2)))
         /\ (particles p1 = particles p2 ->
             sparkle_geoms
               (surface (draw Math_cos Math_sin (Some img1) p1 cv1))
             = sparkle_geoms
                 (surface (draw Math_cos Math_sin (Some img2) p2 cv2)))
         /\ (0 <= particles p1 <= particles p2 ->
             exists l,
               sparkle_geoms
                 (surface (draw Math_cos Math_sin (Some img2) p2 cv2))
               = sparkle_geoms
                   (surface (draw Math_cos Math_sin (Some img1) p1 cv1))
                 ++ l)).
Proof.
  split; [| split; [| split; [| split]]].
  - intros img p cv1 cv2. unfold draw.
    now rewrite (drawBackground_fresh p cv1 cv2).
  - intros p1 p2 n Hi Hs. now rewrite Hi, Hs.
  - intros img p cv. apply (draw_procedural_layers img p cv).
  - intros p cv. cbn [draw].
    destruct (drawBackground_reset p cv) as (_ & _ & F & S).
    split; [now apply sparkle_geoms_none | now apply bolt_paths_none].
  - intros img1 img2 p1 p2 cv1 cv2 Hi Hs.
    destruct (draw_procedural_layers img1 p1 cv1) as (G1 & B1).
    destruct (draw_procedural_layers img2 p2 cv2) as (G2 & B2).
    cbv zeta in G1, B1, G2, B2.
    rewrite G1, G2, B1, B2, Hi, Hs. clear G1 G2 B1 B2.
    split; [| split].
    + intros ->. reflexivity.
    + intros ->. reflexivity.
    + intros Hn.
      replace (particles p2)
        with (particles p1 + (particles p2 - particles p1)) by lia.
      rewrite Z2Nat.inj_add, repeat_loop_add by lia.
      destruct (repeat_loop (Z.to_nat (particles p1)) _ _) as [c1 g1].
      destruct (particles_fills_only (ofZ (size p2)) (ofZ (size p2))
                  (Z.to_nat (particles p2 - particles p1)) c1 g1)
        as (l & E & _).
      cbn [fst]. rewrite E. unfold sparkle_geoms. rewrite flat_map_app.
      eexists. reflexivity.
Qed.

End StreamDependency.

Lemma draw_deterministic_witness :
  let p1 := defaults in
  let p2 := with_particles 200 (with_cyanize (ofZ 0) defaults) in
  (draws 8 (seeded (particle_seed (ofZ (size p1)) (ofZ (size p1))
                                  (intensity p1)))
   = draws 8 (seeded (particle_seed (ofZ (size p2)) (ofZ (size p2))
                                    (intensity p2)))
   /\ draws 8 (seeded (lightning_seed (intensity p1)))
      = draws 8 (seeded (lightning_seed (intensity p2))))
  /\ bolt_paths (surface (draw poly_cos poly_sin (Some sample_image) p1
                               fresh_canvas))
     = bolt_paths (surface (draw poly_cos poly_sin
                                 (Some (mkImage 400 300 [])) p2
                                 (set_width 64 fresh_canvas)))
  /\ exists l,
       sparkle_geoms (surface (draw poly_cos poly_sin
                                    (Some (mkImage 400 300 [])) p2
                                    (set_width 64 fresh_canvas)))
       = sparkle_geoms (surface (draw poly_cos poly_sin (Some sample_image)
                                      p1 fresh_canvas))
         ++ l.
Proof.
  cbv zeta.
  destruct (draw_deterministic poly_cos poly_sin) as (_ & D2 & _ & _ & D5).
  destruct (D5 sample_image (mkImage 400 300 []) defaults
              (with_particles 200 (with_cyanize (ofZ 0) defaults))
              fresh_canvas (set_width 64 fresh_canvas) eq_refl eq_refl)
    as (B & _ & G).
  split; [| split].
  - apply (D2 defaults (with_particles 200 (with_cyanize (ofZ 0) defaults))
              8%nat); reflexivity.
  - apply B. reflexivity.
  - apply G. cbn. lia.
Defined.
